(** * mediaaudit: a shallow embedding of the scanner and its probe adapter

    The repository holds two variants of one program: the current one
    (main in [src/unnamed/part_000], the probe adapter in [src/report.go])
    and an older single-file one ([src/unnamed/part_001]).  [getReport],
    [Report] and [ToSlice] are textually the same in both; the two [main]
    functions differ in the goroutine they start per video file. *)

From Stdlib Require Import ZArith List String Ascii Bool Lia DecimalString
  DecimalPos Permutation.
From Corelib Require Import SpecFloat.
Import ListNotations.

Local Open Scope string_scope.
Local Open Scope Z_scope.

(** ** Go's [strings] package, on byte strings *)

Module Strings.

Fixpoint HasSuffix (s suffix : string) : bool :=
  String.eqb s suffix ||
  match s with
  | EmptyString => false
  | String _ s' => HasSuffix s' suffix
  end.

(** [TrimSuffix] returns [s] without the trailing [suffix]; [s] itself when
    it does not end in [suffix]. *)
Definition TrimSuffix (s suffix : string) : string :=
  if HasSuffix s suffix
  then substring 0 (String.length s - String.length suffix) s
  else s.

(** [Split s sep] for a separator of one byte: the fields between the
    occurrences of [sep]; the empty string splits into one empty field. *)
Fixpoint Split (s : string) (sep : ascii) : list string :=
  match s with
  | EmptyString => [EmptyString]
  | String c s' =>
      if Ascii.eqb c sep then EmptyString :: Split s' sep
      else match Split s' sep with
           | f :: fs => String c f :: fs
           | [] => [String c EmptyString]
           end
  end.

End Strings.

(** ** Go's [strconv.Atoi] on a 64-bit platform *)

Module Strconv.

Inductive NumErrKind := ErrSyntax | ErrRange.

Definition maxUint64 : Z := 18446744073709551615.
Definition maxInt64 : Z := 9223372036854775807.
Definition minInt64 : Z := -9223372036854775808.

Definition digit_val (c : ascii) : option Z :=
  let n := Z.of_nat (nat_of_ascii c) in
  if (48 <=? n) && (n <=? 57) then Some (n - 48) else None.

(** The digit loop of [ParseUint (s, 10, 64)]: the first byte that is not
    a digit is a syntax error, the first step that leaves [uint64] is a
    range error. *)
Fixpoint parse_digits (s : string) (n : Z) : NumErrKind + Z :=
  match s with
  | EmptyString => inr n
  | String c s' =>
      match digit_val c with
      | None => inl ErrSyntax
      | Some d =>
          if n >=? maxUint64 / 10 + 1 then inl ErrRange
          else let n1 := n * 10 + d in
               if n1 >? maxUint64 then inl ErrRange
               else parse_digits s' n1
      end
  end.

Definition ParseUint (s : string) : NumErrKind + Z :=
  match s with
  | EmptyString => inl ErrSyntax
  | _ => parse_digits s 0
  end.

(** [ParseInt (s, 10, 0)]: an optional sign, then [ParseUint], then the
    [int64] range. *)
Definition ParseInt (s : string) : NumErrKind + Z :=
  match s with
  | EmptyString => inl ErrSyntax
  | String c s' =>
      let neg := Ascii.eqb c "-" in
      let body := if Ascii.eqb c "+" || neg then s' else s in
      match ParseUint body with
      | inl e => inl e
      | inr un =>
          if negb neg && (un >=? maxInt64 + 1) then inl ErrRange
          else if neg && (un >? maxInt64 + 1) then inl ErrRange
          else inr (if neg then - un else un)
      end
  end.

(** [Atoi s] is [ParseInt (s, 10, 0)] (its fast path for short strings
    computes the same value and the same syntax errors). *)
Definition Atoi (s : string) : NumErrKind + Z := ParseInt s.

End Strconv.

(** ** Errors and diagnostics *)

(** The [error] values the program handles.  [fmt.Errorf] and the library
    errors are kept as data: the constructor is the format, its arguments
    the values formatted into it. *)
Inductive error :=
| ExecError (msg : string)
    (* what [cmd.Output] returns: a non-zero exit, a missing binary *)
| NumError (num : string) (kind : Strconv.NumErrKind)
    (* strconv.Atoi: parsing "num": invalid syntax | value out of range *)
| MissingInfo (path : string) (info : list string)
    (* Missing full info for file %q, %v *)
| NoBitrate (path : string) (info : list string)
    (* Unable to get bitrate for file %q: %v *)
| OsError (msg : string).
    (* what the file system or the output stream reports *)


(** ** IEEE 754 binary64, Go's [float64] *)

Module F64.

Definition prec : Z := 53.
Definition emax : Z := 1024.

Definition float64 := spec_float.

(** [float64(n)] for an [int] or [int64]: rounded to nearest, ties to even. *)
Definition of_int (n : Z) : float64 := binary_normalize prec emax n 0 false.

Definition mul : float64 -> float64 -> float64 := SFmul prec emax.
Definition div : float64 -> float64 -> float64 := SFdiv prec emax.
Definition leb : float64 -> float64 -> bool := SFleb.
Definition eqb : float64 -> float64 -> bool := SFeqb.

Definition zero : float64 := S754_zero false.

(** [math.Round]: the nearest integer, halves away from zero; zeros,
    infinities and NaN are returned as they are, and the sign is kept. *)
Definition Round (x : float64) : float64 :=
  match x with
  | S754_finite s m e =>
      if 0 <=? e then x
      else
        let d := 2 ^ (- e) in
        let q := Zpos m / d in
        let r := Zpos m mod d in
        let n := if d <=? 2 * r then q + 1 else q in
        binary_normalize prec emax (if s then - n else n) 0 s
  | _ => x
  end.

(** The integer nearest to [x * 10^digits], ties to even, for finite [x]:
    what ['f'] formatting with a fixed precision prints. *)
Definition scaled_nearest_even (digits : nat) (m : positive) (e : Z) : Z :=
  let num := Zpos m * 10 ^ Z.of_nat digits in
  if 0 <=? e then num * 2 ^ e
  else
    let d := 2 ^ (- e) in
    let q := num / d in
    let r := num mod d in
    match 2 * r ?= d with
    | Lt => q
    | Gt => q + 1
    | Eq => if Z.even q then q else q + 1
    end.

Definition dec (n : Z) : string := NilZero.string_of_int (Z.to_int n).

Fixpoint zeros (n : nat) : string :=
  match n with O => EmptyString | S n' => String "0" (zeros n') end.

Definition fixed (digits : nat) (sign : bool) (n : Z) : string :=
  let p := 10 ^ Z.of_nat digits in
  let frac := dec (n mod p) in
  ((if sign then "-" else "") ++ dec (n / p) ++
   match digits with
   | O => ""
   | _ => "." ++ zeros (digits - String.length frac) ++ frac
   end)%string.

(** [fmt.Sprintf ("%.<digits>f", x)]. *)
Definition Sprintf_f (digits : nat) (x : float64) : string :=
  match x with
  | S754_nan => "NaN"
  | S754_infinity false => "+Inf"
  | S754_infinity true => "-Inf"
  | S754_zero s => fixed digits s 0
  | S754_finite s m e => fixed digits s (scaled_nearest_even digits m e)
  end.

End F64.

(** [fmt.Sprintf ("%d", n)]. *)
Definition Sprintf_d (n : Z) : string := F64.dec n.

(** ** The probe adapter ([src/report.go], and the same text in
    [src/unnamed/part_001]) *)

Definition reportHeaders : list string :=
  ["Codec"; "SizeMB"; "BitrateType"; "BitrateMbps"; "Width"; "Height"].

Record Report := mkReport {
  Name : string;
  Codec : string;
  SizeMB : F64.float64;
  BitrateType : string;
  BitrateMbps : F64.float64;
  Width : Z;
  Height : Z
}.

(** [Report{}]: every field at its zero value. *)
Definition zeroReport : Report :=
  mkReport "" "" F64.zero "" F64.zero 0 0.

Definition ToSlice (r : Report) : list string :=
  [Codec r; F64.Sprintf_f 2 (SizeMB r); BitrateType r;
   F64.Sprintf_f 3 (BitrateMbps r); Sprintf_d (Width r); Sprintf_d (Height r)].

(** [math.Round((float64(v)/1048576)*scale) / scale], the conversion the
    adapter applies to the bitrate ([scale = 1000]) and the goroutine to
    the file size ([scale = 100]). *)
Definition roundedMega (scale : Z) (v : Z) : F64.float64 :=
  F64.div
    (F64.Round (F64.mul (F64.div (F64.of_int v) (F64.of_int 1048576))
                        (F64.of_int scale)))
    (F64.of_int scale).

Definition bitrateMbpsOf (bitrateInt : Z) : F64.float64 :=
  roundedMega 1000 bitrateInt.

Definition sizeMBOf (size : Z) : F64.float64 := roundedMega 100 size.

(** What [exec.Command("mediainfo", ...).Output()] hands back: the bytes
    of standard output and an error.  The subprocess is outside the
    program; it is a parameter of the adapter, applied to the template
    file's path and the media file's path. *)
Definition prober := string -> string -> string * option error.

Definition newline : string := String "010" EmptyString.

Definition atoi (s : string) : error + Z :=
  match Strconv.Atoi s with
  | inl k => inl (NumError s k)
  | inr n => inr n
  end.

(** [getReport] returns a pointer and an error; the pointer is modelled as
    an [option] ([None] is Go's [nil]). *)
Definition getReport (mediainfo : prober) (path templateFilePath : string)
  : option Report * option error :=
  let '(bytes, err) := mediainfo templateFilePath path in
  match err with
  | Some e => (Some zeroReport, Some e)
  | None =>
      let info := Strings.Split (Strings.TrimSuffix bytes newline) "," in
      match info with
      | [i0; i1; i2; i3; i4; i5; i6] =>
          let codec := i1 in
          match atoi i2 with
          | inl e => (Some zeroReport, Some e)
          | inr width =>
              match atoi i3 with
              | inl e => (Some zeroReport, Some e)
              | inr height =>
                  let chosen :=
                    if negb (String.eqb i4 "") then Some ("Variable", i4)
                    else if negb (String.eqb i5 "") then Some ("Constant", i5)
                    else if negb (String.eqb i6 "") then Some ("Nominal", i6)
                    else if negb (String.eqb i0 "") then Some ("Overall", i0)
                    else None in
                  match chosen with
                  | None => (Some zeroReport, Some (NoBitrate path info))
                  | Some (bitrateType, bitrateString) =>
                      match atoi bitrateString with
                      | inl e => (Some zeroReport, Some e)
                      | inr bitrateInt =>
                          (Some (mkReport "" codec F64.zero bitrateType
                                          (bitrateMbpsOf bitrateInt)
                                          width height),
                           None)
                      end
                  end
              end
          end
      | _ => (Some zeroReport, Some (MissingInfo path info))
      end
  end.

(** ** Go's [regexp], for the fragment the two patterns use *)

Module Regexp.

Inductive regex :=
| Lit (c : ascii)          (* a literal byte; [\.] is [Lit "."] *)
| EndText                  (* [$], without the multi-line flag *)
| Cat (r1 r2 : regex)
| Alt (r1 r2 : regex).

(** [matches r s k]: [r] matches a prefix of [s] and [k] accepts the rest. *)
Fixpoint matches (r : regex) (s : string) (k : string -> bool) : bool :=
  match r with
  | Lit c =>
      match s with
      | String d s' => Ascii.eqb c d && k s'
      | EmptyString => false
      end
  | EndText =>
      match s with
      | EmptyString => k s
      | String _ _ => false
      end
  | Cat r1 r2 => matches r1 s (fun s' => matches r2 s' k)
  | Alt r1 r2 => matches r1 s k || matches r2 s k
  end.

(** [MatchString]: the pattern is not anchored, so it may match at any
    position of [s]. *)
Fixpoint MatchString (r : regex) (s : string) : bool :=
  matches r s (fun _ => true) ||
  match s with
  | EmptyString => false
  | String _ s' => MatchString r s'
  end.

(** The pattern [\.abc$], for the extension [abc]. *)
Definition ext (x y z : ascii) : regex :=
  Cat (Lit ".") (Cat (Lit x) (Cat (Lit y) (Cat (Lit z) EndText))).

End Regexp.

(** [\.mp4$|\.mkv$|\.avi$|\.mov$] *)
Definition videoFileRegex : Regexp.regex :=
  Regexp.Alt (Regexp.ext "m" "p" "4")
    (Regexp.Alt (Regexp.ext "m" "k" "v")
       (Regexp.Alt (Regexp.ext "a" "v" "i") (Regexp.ext "m" "o" "v"))).

(** [\.srt$|\.idx$|\.sub$] *)
Definition subtitleFileRegex : Regexp.regex :=
  Regexp.Alt (Regexp.ext "s" "r" "t")
    (Regexp.Alt (Regexp.ext "i" "d" "x") (Regexp.ext "s" "u" "b")).

(** ** The output stream and [encoding/csv]'s writer *)

Module Csv.

Definition record := list string.

(** The stream under the writer ([os.Stdout]): the records it has taken,
    and what its coming [Write] calls answer, in order ([None]: the write
    succeeds; past the end of the list every write succeeds). *)
Record ostream := mkStream {
  written : list record;
  faults : list (option error)
}.

Definition os_write (o : ostream) (recs : list record)
  : ostream * option error :=
  match faults o with
  | Some e :: rest => (mkStream (written o) rest, Some e)
  | None :: rest => (mkStream (written o ++ recs) rest, None)
  | [] => (mkStream (written o ++ recs) [], None)
  end.

(** [csv.Writer] wraps a [bufio.Writer]: records wait in its buffer until
    [Flush], and the first error of the stream sticks: from then on
    [Write] drops its record, [Flush] does nothing and [Error] reports it. *)
Record Writer := mkWriter {
  pending : list record;
  werr : option error
}.

Definition NewWriter : Writer := mkWriter [] None.

Definition Write (w : Writer) (r : record) : Writer :=
  match werr w with
  | Some _ => w
  | None => mkWriter (pending w ++ [r]) None
  end.

Definition Flush (w : Writer) (o : ostream) : Writer * ostream :=
  match werr w, pending w with
  | Some _, _ => (w, o)
  | None, [] => (w, o)
  | None, recs =>
      match os_write o recs with
      | (o', None) => (mkWriter [] None, o')
      | (o', Some e) => (mkWriter recs (Some e), o')
      end
  end.

Definition Error (w : Writer) : option error := werr w.

End Csv.

(** ** The scan: walk, dispatch, goroutines *)

(** One line written by package [log] to standard error: the format is
    the constructor, the arguments are the values formatted into it. *)
Inductive logline :=
| LogAccessFailure (path : string) (e : error)
    (* Prevent panic by handling failure accessing a path %q: %v *)
| LogSkipping (name : string)
    (* Skipping non-video file: %q *)
| LogError (e : error)
    (* log.Println(err.Error()) *)
| LogFlushFailure (name : string) (e : error)
    (* Failed to flush writes to CSV when checking %q: %s *)
| LogFatal (e : error).
    (* log.Fatal(err) *)

(** [os.FileInfo], as far as the program reads it. *)
Record FileInfo := mkInfo {
  fi_Name : string;
  fi_Size : Z;
  fi_IsDir : bool
}.

(** One call [filepath.Walk] makes to its callback: the path, the entry's
    [FileInfo] ([None] is a nil interface, as after a failed [Lstat] of the
    root) and the error met on the way to it. *)
Record visit := mkVisit {
  v_path : string;
  v_info : option FileInfo;
  v_err : option error
}.

(** What the goroutines and [main] share: the CSV writer, the stream it
    writes to, the diagnostics, and whether a goroutine has panicked (an
    unrecovered panic ends the process). *)
Record world := mkWorld {
  writer : Csv.Writer;
  stdout : Csv.ostream;
  stderr : list logline;
  panicked : bool
}.

Definition log (l : logline) (w : world) : world :=
  mkWorld (writer w) (stdout w) (stderr w ++ [l]) (panicked w).

Definition panic (w : world) : world :=
  mkWorld (writer w) (stdout w) (stderr w) true.

(** A goroutine is a sequence of steps on the shared state, each atomic
    for the others: one call of the logger (which locks), or the stretch
    from the first use of [report] to the end of the section under
    [csvLock]. *)
Inductive action :=
| ActLog (l : logline)
| ActEmit (info : FileInfo) (report : option Report) (err : option error).

(** From [report.SizeMB = ...] to the end of the goroutine: the same text
    in both variants. [err] is the variable [getReport] assigned. *)
Definition emit (info : FileInfo) (report : option Report)
  (err : option error) (w : world) : world :=
  match report with
  | None => panic w
  | Some r =>
      let r := mkReport (Name r) (Codec r) (sizeMBOf (fi_Size info))
                        (BitrateType r) (BitrateMbps r) (Width r) (Height r) in
      let values := fi_Name info :: ToSlice r in
      let wr := Csv.Write (writer w) values in
      let '(wr, out) := Csv.Flush wr (stdout w) in
      let w := mkWorld wr out (stderr w) (panicked w) in
      match Csv.Error wr with
      | None => w
      | Some _ =>
          match err with
          | None => panic w      (* err.Error() on a nil error *)
          | Some e => log (LogFlushFailure (fi_Name info) e) w
          end
      end
  end.

Definition perform (a : action) (w : world) : world :=
  match a with
  | ActLog l => log l w
  | ActEmit info report err => emit info report err w
  end.

(** What one call of the walk callback does besides its effect on the
    shared state: return a value to [Walk], or start a goroutine and
    return nil, or panic. *)
Inductive outcome :=
| Return (e : option error)
| Go (g : list action)
| Panic.

Definition spawner := string -> FileInfo -> list action.

(** The callback given to [filepath.Walk]; the same text in both
    variants up to the goroutine it starts. *)
Definition callback (goroutine : spawner) (v : visit) (w : world)
  : world * outcome :=
  match v_err v with
  | Some e => (log (LogAccessFailure (v_path v) e) w, Return (Some e))
  | None =>
      match v_info v with
      | None => (panic w, Panic)
      | Some info =>
          if fi_IsDir info then (w, Return None)
          else if Regexp.MatchString subtitleFileRegex (fi_Name info)
          then (w, Return None)
          else if negb (Regexp.MatchString videoFileRegex (fi_Name info))
          then (log (LogSkipping (fi_Name info)) w, Return None)
          else (w, Go (goroutine (v_path v) info))
      end
  end.

(** The three classes the callback's cases sort a file name into. *)
Inductive FileClass := Video | Subtitle | Other.

Definition classify (name : string) : FileClass :=
  if Regexp.MatchString subtitleFileRegex name then Subtitle
  else if negb (Regexp.MatchString videoFileRegex name) then Other
  else Video.

(** The state of a run: the visits [Walk] has still to make (none once it
    has returned), the goroutines in flight with the steps each has left,
    and the shared state. *)
Record config := mkConfig {
  walk : list visit;
  running : list (list action);
  shared : world
}.

Definition headers : Csv.record := "Name" :: reportHeaders.

(** [main] up to the call of [filepath.Walk]: the template file exists,
    the header is handed to the writer and not flushed. *)
Definition start (out : Csv.ostream) (visits : list visit) : config :=
  mkConfig visits []
    (mkWorld (Csv.Write Csv.NewWriter headers) out [] false).

(** [main] when [ioutil.TempFile] fails: [log.Fatal]. *)
Definition fatal_start (out : Csv.ostream) (e : error) : config :=
  mkConfig [] [] (mkWorld Csv.NewWriter out [LogFatal e] false).

Definition enter (g : list action) (rs : list (list action))
  : list (list action) :=
  match g with
  | [] => rs
  | _ => rs ++ [g]
  end.

Section Scan.

Variable maxSem : nat.
Variable goroutine : spawner.

(** One step of a run.  The walk is sequential; a visit that starts a
    goroutine first takes one unit of the semaphore, so it waits while
    [maxSem] goroutines are in flight; a goroutine gives its unit back when
    its last step is done.  After a panic nothing runs. *)
Inductive step : config -> config -> Prop :=
| step_return : forall v rest rs w w',
    panicked w = false ->
    callback goroutine v w = (w', Return None) ->
    step (mkConfig (v :: rest) rs w) (mkConfig rest rs w')
| step_halt : forall v rest rs w w' e,
    panicked w = false ->
    callback goroutine v w = (w', Return (Some e)) ->
    step (mkConfig (v :: rest) rs w) (mkConfig [] rs w')
| step_go : forall v rest rs w w' g,
    panicked w = false ->
    callback goroutine v w = (w', Go g) ->
    (List.length rs < maxSem)%nat ->
    step (mkConfig (v :: rest) rs w) (mkConfig rest (enter g rs) w')
| step_panic : forall v rest rs w w',
    panicked w = false ->
    callback goroutine v w = (w', Panic) ->
    step (mkConfig (v :: rest) rs w) (mkConfig rest rs w')
| step_action : forall vs pre a g post w,
    panicked w = false ->
    step (mkConfig vs (pre ++ (a :: g) :: post) w)
         (mkConfig vs (pre ++ enter g post) (perform a w)).

Inductive steps : config -> config -> Prop :=
| steps_refl : forall c, steps c c
| steps_step : forall c1 c2 c3, step c1 c2 -> steps c2 c3 -> steps c1 c3.

(** [main] returns when the walk is over and the last [sem.Acquire] has
    got every unit back; a panic ends the process where it is. *)
Definition finished (c : config) : Prop :=
  panicked (shared c) = true \/ (walk c = [] /\ running c = []).

Fixpoint perform_all (g : list action) (w : world) : world :=
  match g with
  | [] => w
  | a :: g' => if panicked w then w else perform_all g' (perform a w)
  end.

(** One schedule among the possible ones, as a function: every goroutine
    runs to its end before the walk goes on. *)
Fixpoint run (vs : list visit) (w : world) : world :=
  match vs with
  | [] => w
  | v :: rest =>
      if panicked w then w
      else match callback goroutine v w with
           | (w', Return None) => run rest w'
           | (w', Return (Some _)) => w'
           | (w', Go g) => run rest (perform_all g w')
           | (w', Panic) => w'
           end
  end.

End Scan.

(** ** The two variants *)

Section Variants.

Variable mediainfo : prober.
Variable templateFilePath : string.

(** [src/unnamed/part_000], with [getReport] from [src/report.go]. *)
Definition goroutine_part000 : spawner := fun path info =>
  let '(report, err) := getReport mediainfo path templateFilePath in
  match err with
  | Some e => [ActLog (LogError e)]
  | None => [ActEmit info report err]
  end.

(** [src/unnamed/part_001]: the error is logged and the goroutine goes on. *)
Definition goroutine_part001 : spawner := fun path info =>
  let '(report, err) := getReport mediainfo path templateFilePath in
  match err with
  | Some e => [ActLog (LogError e); ActEmit info report err]
  | None => [ActEmit info report err]
  end.

End Variants.

Definition maxSem_part000 : nat := 150.
Definition maxSem_part001 : nat := 200.

(** ** Rounding, as arithmetic on integers

    What the proofs about [F64] are stated with: the position of a
    remainder within its divisor, the nearest-even quotient of two
    integers, and the mantissa and exponent [binary_round_aux] returns
    for a ratio. *)

(** Where the remainder [r] of a division by [b] lies: nowhere (the
    division is exact), or below, at or above half of [b]. *)
Definition loc_rem (r b : Z) : location :=
  if r =? 0 then loc_Exact else loc_Inexact (2 * r ?= b).

(** [a / b] rounded to the nearest integer, halves to the even one. *)
Definition rne_div (a b : Z) : Z :=
  round_nearest_even (a / b) (loc_rem (a mod b) b).

(** A shift record that holds the quotient of [a] by [b] and the place
    of the remainder. *)
Definition tracks (a b : Z) (mrs : shr_record) : Prop :=
  shr_m mrs = a / b /\ loc_of_shr_record mrs = loc_rem (a mod b) b.

(** The mantissa and the exponent of [(a / b) * 2^e] rounded to 53 bits,
    when the integer part of [a / b] has at least 53 bits. *)
Definition rnd (a b e : Z) : Z * Z :=
  let n := Zdigits2 (a / b) - 53 in
  let k := rne_div a (b * 2 ^ n) in
  if k =? 2 ^ 53 then (2 ^ 52, e + n + 1) else (k, e + n).

(** The order of two (mantissa, exponent) pairs whose mantissas have the
    same number of bits. *)
Definition lex_le (x y : Z * Z) : Prop :=
  snd x < snd y \/ (snd x = snd y /\ fst x <= fst y).

Definition canonical53 (m : Z) : Prop := 2 ^ 52 <= m < 2 ^ 53.

(** [ordered L x y]: [x] and [y] are each [+0] or a positive normal
    number with an exponent within [L], and [x] is not above [y]. *)
Inductive ordered (L : Z) : spec_float -> spec_float -> Prop :=
| ord_zero_zero : ordered L (S754_zero false) (S754_zero false)
| ord_zero_pos : forall m e,
    canonical53 (Zpos m) -> - L <= e <= L ->
    ordered L (S754_zero false) (S754_finite false m e)
| ord_pos_pos : forall m e m' e',
    canonical53 (Zpos m) -> canonical53 (Zpos m') ->
    - L <= e <= L -> - L <= e' <= L ->
    lex_le (Zpos m, e) (Zpos m', e') ->
    ordered L (S754_finite false m e) (S754_finite false m' e').

(** [a / b] rounded to the nearest integer, halves upwards. *)
Definition half_up (a b : Z) : Z :=
  if b <=? 2 * (a mod b) then a / b + 1 else a / b.

(** ** The words of the claims, as predicates *)

Definition ends_in_video_ext (name : string) : bool :=
  Strings.HasSuffix name ".mp4" || Strings.HasSuffix name ".mkv" ||
  Strings.HasSuffix name ".avi" || Strings.HasSuffix name ".mov".

Definition ends_in_subtitle_ext (name : string) : bool :=
  Strings.HasSuffix name ".srt" || Strings.HasSuffix name ".idx" ||
  Strings.HasSuffix name ".sub".

(** A visit that neither logs nor starts a goroutine: a directory, or a
    subtitle file. *)
Definition silent (v : visit) : bool :=
  match v_err v, v_info v with
  | None, Some info =>
      fi_IsDir info || Regexp.MatchString subtitleFileRegex (fi_Name info)
  | _, _ => false
  end.

(** The row a goroutine hands to the writer for [info] and the record [r]. *)
Definition row_of (info : FileInfo) (r : Report) : Csv.record :=
  fi_Name info ::
  ToSlice (mkReport (Name r) (Codec r) (sizeMBOf (fi_Size info))
                    (BitrateType r) (BitrateMbps r) (Width r) (Height r)).

(** ** Concrete inputs used below *)

(** A prober whose subprocess prints [line] for every file. *)
Definition prints (line : string) : prober := fun _ _ => (line, None).

(** A prober whose subprocess fails for every file. *)
Definition fails_with (e : error) : prober := fun _ _ => (EmptyString, Some e).

Definition root_dir : visit :=
  mkVisit "root" (Some (mkInfo "root" 4096 true)) None.

Definition file_visit (dir name : string) (size : Z) : visit :=
  mkVisit (dir ++ "/" ++ name) (Some (mkInfo name size false)) None.

(** A stream every write to which succeeds, and one whose first write
    fails. *)
Definition good_stream : Csv.ostream := Csv.mkStream [] [].
Definition full_stream : Csv.ostream :=
  Csv.mkStream [] [Some (OsError "no space left on device")].

(** ** Words for the properties of a whole scan *)

(** The records an action hands to the writer, and the lines it logs
    while the stream works. *)
Definition emits (a : action) : list Csv.record :=
  match a with
  | ActEmit info (Some r) _ => [row_of info r]
  | _ => []
  end.

Definition says (a : action) : list logline :=
  match a with
  | ActLog l => [l]
  | _ => []
  end.

(** A goroutine that never reaches [emit] with a nil record. *)
Definition sound_action (a : action) : bool :=
  match a with
  | ActEmit _ None _ => false
  | _ => true
  end.

(** A call [Walk] can make: an entry without an error comes with its
    [FileInfo]. *)
Definition well_formed (v : visit) : bool :=
  match v_err v, v_info v with
  | None, None => false
  | _, _ => true
  end.

(** A regular file whose name has a video extension. *)
Definition is_video_file (info : FileInfo) : bool :=
  negb (fi_IsDir info) && ends_in_video_ext (fi_Name info).

(** A regular file that is neither a subtitle nor a video. *)
Definition is_other_file (info : FileInfo) : bool :=
  negb (fi_IsDir info) && negb (ends_in_subtitle_ext (fi_Name info)) &&
  negb (ends_in_video_ext (fi_Name info)).

(** What a scan is to produce from the visits [vs], read off the visits
    alone: the walk stops at the first visit that carries an error; before
    that, each video file contributes what [per_file] gives for it. *)
Fixpoint scan_rows (per_file : string -> FileInfo -> list Csv.record)
  (vs : list visit) : list Csv.record :=
  match vs with
  | [] => []
  | v :: rest =>
      match v_err v, v_info v with
      | Some _, _ => []
      | None, None => []
      | None, Some info =>
          ((if is_video_file info then per_file (v_path v) info else []) ++
           scan_rows per_file rest)%list
      end
  end.

Fixpoint scan_logs (per_file : string -> FileInfo -> list logline)
  (vs : list visit) : list logline :=
  match vs with
  | [] => []
  | v :: rest =>
      match v_err v, v_info v with
      | Some e, _ => [LogAccessFailure (v_path v) e]
      | None, None => []
      | None, Some info =>
          ((if is_video_file info then per_file (v_path v) info
            else if is_other_file info then [LogSkipping (fi_Name info)]
            else []) ++
           scan_logs per_file rest)%list
      end
  end.

Section Expected.

Variable mediainfo : prober.
Variable templateFilePath : string.




End Expected.

Definition healthy (w : world) : Prop :=
  panicked w = false /\ Csv.werr (writer w) = None /\
  Csv.faults (stdout w) = [].

(** Every record of a state: on the stream, in the writer's buffer, still
    to be emitted by the goroutines in flight, and still to come from the
    walk. *)
Definition all_records (goroutine : spawner) (c : config) : list Csv.record :=
  (Csv.written (stdout (shared c)) ++ Csv.pending (writer (shared c)) ++
   flat_map (flat_map emits) (running c) ++
   scan_rows (fun p i => flat_map emits (goroutine p i)) (walk c))%list.

Definition all_logs (goroutine : spawner) (c : config) : list logline :=
  (stderr (shared c) ++ flat_map (flat_map says) (running c) ++
   scan_logs (fun p i => flat_map says (goroutine p i)) (walk c))%list.

(** A state of a scan over a working stream in which nothing has gone
    wrong: every visit still to come is one [Walk] can make, no goroutine
    in flight is about to use a nil record, and the header is either the
    one record the writer still holds or the first one on the stream. *)
Definition tidy (c : config) : Prop :=
  healthy (shared c) /\
  forallb well_formed (walk c) = true /\
  forallb (forallb sound_action) (running c) = true /\
  ((Csv.written (stdout (shared c)) = [] /\
    Csv.pending (writer (shared c)) = [headers]) \/
   (exists rows, Csv.written (stdout (shared c)) = headers :: rows /\
                 Csv.pending (writer (shared c)) = [])).

(** What a visit can still cost: itself, and the steps of the goroutine
    it starts. *)
Definition visit_cost (goroutine : spawner) (v : visit) : nat :=
  match v_err v, v_info v with
  | None, Some info =>
      if is_video_file info
      then S (List.length (goroutine (v_path v) info))
      else 1
  | _, _ => 1
  end.

(** The number of steps a state has left at most. *)
Definition weight (goroutine : spawner) (c : config) : nat :=
  (list_sum (map (visit_cost goroutine) (walk c)) +
   list_sum (map (@List.length action) (running c)))%nat.

(** [ends_within n c]: whatever the schedule does from [c], the run is at
    its end after [n] steps at most, and until then it is never stuck. *)
Fixpoint ends_within (maxSem : nat) (goroutine : spawner) (n : nat)
  (c : config) : Prop :=
  match n with
  | O => finished c
  | S n' =>
      finished c \/
      ((exists c', step maxSem goroutine c c') /\
       forall c', step maxSem goroutine c c' ->
                  ends_within maxSem goroutine n' c')
  end.

(** ** Words for the properties of the probe line and the numbers *)

(** The number of bytes of [s] equal to [sep]. *)
Fixpoint count_byte (sep : ascii) (s : string) : nat :=
  match s with
  | EmptyString => O
  | String c s' => ((if Ascii.eqb c sep then 1 else 0) + count_byte sep s')%nat
  end.

(** [strings.Join] with a separator of one byte. *)
Fixpoint join_with (sep : ascii) (elems : list string) : string :=
  match elems with
  | [] => EmptyString
  | [e] => e
  | e :: rest => e ++ String sep (join_with sep rest)
  end.

(** [math.IsNaN (x) || math.IsInf (x, 0)] is false. *)
Definition is_finite (x : F64.float64) : bool :=
  match x with
  | S754_zero _ | S754_finite _ _ _ => true
  | _ => false
  end.

(** [math.Signbit]. *)
Definition signbit (x : F64.float64) : bool :=
  match x with
  | S754_zero s | S754_infinity s | S754_finite s _ _ => s
  | S754_nan => false
  end.

(** The [float64] that holds the integer [v] exactly, for [0 < v < 2^53]:
    [v] shifted left until it has 53 bits, and the exponent that undoes
    the shift. *)
Definition exact_int (v : Z) : F64.float64 :=
  let d := Zdigits2 v in
  S754_finite false (Z.to_pos (v * 2 ^ (53 - d))) (d - 53).

(** ** A small scan used below *)

(** A small scan: the probe fails for [clip.mov] and succeeds for
    [movie.mp4]. *)
Definition demo_mediainfo : prober := fun _ path =>
  if String.eqb path "root/movie.mp4"
  then (",AVC,1920,1080,2097152,," ++ newline, None)
  else (EmptyString, Some (ExecError "exit status 1")).

Definition demo_visits : list visit :=
  [root_dir; file_visit "root" "clip.mov" 2048;
   file_visit "root" "movie.mp4" 10485760].

Definition demo_end (goroutine : spawner) : config :=
  mkConfig [] []
    (run goroutine demo_visits (shared (start good_stream demo_visits))).

(** * Properties of the probe adapter *)

Section AdapterFacts.

Variable mediainfo : prober.
Variables path templateFilePath : string.

Lemma atoi_inr (s : string) (n : Z) :
  atoi s = inr n -> Strconv.Atoi s = inr n.
Proof.
  unfold atoi. destruct (Strconv.Atoi s); congruence.
Qed.

Lemma atoi_inl (s : string) (e : error) :
  atoi s = inl e -> exists k, e = NumError s k.
Proof.
  unfold atoi. destruct (Strconv.Atoi s) as [k|]; intros H; inversion H; eauto.
Qed.

Lemma eqb_empty_false (s : string) : s <> "" -> String.eqb s "" = false.
Proof. intros H. apply String.eqb_neq. exact H. Qed.

(** Unfolding [getReport] once the subprocess has printed seven fields
    of which the third and fourth are integers. *)
Lemma getReport_seven bytes i0 i1 i2 i3 i4 i5 i6 w h :
  mediainfo templateFilePath path = (bytes, None) ->
  Strings.Split (Strings.TrimSuffix bytes newline) "," =
    [i0; i1; i2; i3; i4; i5; i6] ->
  atoi i2 = inr w -> atoi i3 = inr h ->
  getReport mediainfo path templateFilePath =
  match (if negb (String.eqb i4 "") then Some ("Variable", i4)
         else if negb (String.eqb i5 "") then Some ("Constant", i5)
         else if negb (String.eqb i6 "") then Some ("Nominal", i6)
         else if negb (String.eqb i0 "") then Some ("Overall", i0)
         else None) with
  | None => (Some zeroReport,
             Some (NoBitrate path [i0; i1; i2; i3; i4; i5; i6]))
  | Some (bitrateType, bitrateString) =>
      match atoi bitrateString with
      | inl e => (Some zeroReport, Some e)
      | inr bitrateInt =>
          (Some (mkReport "" i1 F64.zero bitrateType
                          (bitrateMbpsOf bitrateInt) w h), None)
      end
  end.
Proof.
  intros Hrun Hsplit Hw Hh. unfold getReport.
  rewrite Hrun, Hsplit, Hw, Hh. reflexivity.
Qed.

End AdapterFacts.

(** ** [strconv.Atoi] stays within [int64] *)

Lemma parse_digits_range (s : string) : forall n v,
  0 <= n <= Strconv.maxUint64 -> Strconv.parse_digits s n = inr v ->
  0 <= v <= Strconv.maxUint64.
Proof.
  induction s as [|c s IH]; intros n v Hn H; cbn [Strconv.parse_digits] in H.
  - inversion H; subst. exact Hn.
  - destruct (Strconv.digit_val c) as [d|] eqn:Hd; [|discriminate].
    destruct (n >=? _); [discriminate|].
    cbv zeta in H.
    destruct (n * 10 + d >? Strconv.maxUint64) eqn:Hov; [discriminate|].
    apply (IH (n * 10 + d)); [|exact H].
    unfold Strconv.digit_val in Hd.
    destruct ((48 <=? Z.of_nat (nat_of_ascii c)) &&
              (Z.of_nat (nat_of_ascii c) <=? 57)) eqn:Hc; [|discriminate].
    apply andb_prop in Hc. destruct Hc as [H1 H2].
    inversion Hd; subst. apply Z.leb_le in H1.
    rewrite Z.gtb_ltb in Hov. apply Z.ltb_ge in Hov.
    split; [lia|exact Hov].
Qed.

Lemma Atoi_range (s : string) (v : Z) :
  Strconv.Atoi s = inr v ->
  Strconv.minInt64 <= v <= Strconv.maxInt64 /\
  (v < 0 -> exists s', s = String "-" s').
Proof.
  unfold Strconv.Atoi, Strconv.ParseInt.
  destruct s as [|c s']; [discriminate|].
  cbv zeta.
  destruct (Strconv.ParseUint _) as [k|un] eqn:Hu; [discriminate|].
  assert (Hun : 0 <= un <= Strconv.maxUint64).
  { unfold Strconv.ParseUint in Hu.
    destruct (if (c =? "+")%char || (c =? "-")%char then s' else String c s');
      [discriminate|].
    eapply parse_digits_range; [|exact Hu].
    unfold Strconv.maxUint64; lia. }
  destruct (Ascii.eqb_spec c "-") as [->|Hc]; cbn [negb andb].
  - destruct (un >? Strconv.maxInt64 + 1) eqn:Hgt; [discriminate|].
    rewrite Z.gtb_ltb in Hgt. apply Z.ltb_ge in Hgt.
    intros H; inversion H; subst.
    unfold Strconv.minInt64, Strconv.maxInt64 in *.
    split; [lia|]. intros _. eauto.
  - destruct (un >=? Strconv.maxInt64 + 1) eqn:Hge; [discriminate|].
    rewrite Z.geb_leb in Hge. apply Z.leb_gt in Hge.
    intros H; inversion H; subst.
    unfold Strconv.minInt64, Strconv.maxInt64 in *.
    split; [lia|]. intros Hneg. lia.
Qed.

(** ** The bitrate chain *)

(** C5: for a probe output of seven fields whose width and height are
    integers, the first non-empty field among 4, 5, 6, 0 (in this order)
    decides: field 4 gives "Variable" whatever fields 5, 6 and 0 hold,
    else field 5 gives "Constant", else field 6 "Nominal", else field 0
    "Overall"; the bitrate is the value of the deciding field. *)
Theorem bitrate_first_match_wins
  (mediainfo : prober) (path tmpl bytes i0 i1 i2 i3 i4 i5 i6 : string)
  (w h v : Z) :
  mediainfo tmpl path = (bytes, None) ->
  Strings.Split (Strings.TrimSuffix bytes newline) "," =
    [i0; i1; i2; i3; i4; i5; i6] ->
  atoi i2 = inr w -> atoi i3 = inr h ->
  let reports ty :=
    getReport mediainfo path tmpl =
    (Some (mkReport "" i1 F64.zero ty (bitrateMbpsOf v) w h), None) in
  (i4 <> "" -> atoi i4 = inr v -> reports "Variable") /\
  (i4 = "" -> i5 <> "" -> atoi i5 = inr v -> reports "Constant") /\
  (i4 = "" -> i5 = "" -> i6 <> "" -> atoi i6 = inr v -> reports "Nominal") /\
  (i4 = "" -> i5 = "" -> i6 = "" -> i0 <> "" -> atoi i0 = inr v ->
   reports "Overall").
Proof.
  intros Hrun Hsplit Hw Hh reports. subst reports.
  rewrite (getReport_seven mediainfo path tmpl _ _ _ _ _ _ _ _ _ _
             Hrun Hsplit Hw Hh).
  repeat split.
  - intros H4 Hv. rewrite (eqb_empty_false _ H4). cbn. now rewrite Hv.
  - intros -> H5 Hv. rewrite (eqb_empty_false _ H5). cbn. now rewrite Hv.
  - intros -> -> H6 Hv. rewrite (eqb_empty_false _ H6). cbn. now rewrite Hv.
  - intros -> -> -> H0 Hv. rewrite (eqb_empty_false _ H0). cbn.
    now rewrite Hv.
Qed.

Lemma bitrate_first_match_wins_witness :
  getReport (prints ("900,AVC,1920,1080,2097152,7,8" ++ newline))
            "movie.mp4" "tmpl" =
  (Some (mkReport "" "AVC" F64.zero "Variable" (bitrateMbpsOf 2097152)
                  1920 1080), None).
Proof.
  apply (proj1 (bitrate_first_match_wins
                  (prints ("900,AVC,1920,1080,2097152,7,8" ++ newline))
                  "movie.mp4" "tmpl" _ "900" "AVC" "1920" "1080" "2097152"
                  "7" "8" 1920 1080 2097152
                  eq_refl eq_refl eq_refl eq_refl)).
  - discriminate.
  - reflexivity.
Defined.

(** ** What [getReport] returns *)

(** The three shapes of what [getReport] returns. *)
Lemma getReport_shape (mediainfo : prober) (path tmpl : string) :
  match getReport mediainfo path tmpl with
  | (Some r, Some _) => r = zeroReport
  | (Some r, None) =>
      In (BitrateType r) ["Variable"; "Constant"; "Nominal"; "Overall"]
  | (None, _) => False
  end.
Proof.
  unfold getReport.
  destruct (mediainfo tmpl path) as [bytes [e|]]; [reflexivity|].
  destruct (Strings.Split _ _) as [|i0 [|i1 [|i2 [|i3 [|i4 [|i5 [|i6 [|]]]]]]]];
    try reflexivity.
  destruct (atoi i2) as [e|w]; [reflexivity|].
  destruct (atoi i3) as [e|h]; [reflexivity|].
  destruct (negb (i4 =? "")%string);
    [|destruct (negb (i5 =? "")%string);
      [|destruct (negb (i6 =? "")%string);
        [|destruct (negb (i0 =? "")%string)]]];
    try reflexivity;
    match goal with
    | |- context [atoi ?s] => destruct (atoi s) as [e|v]; [reflexivity|]
    end; cbn; tauto.
Qed.

Lemma emit_with_error_does_not_panic
  (info : FileInfo) (r : Report) (e : error) (w : world) :
  panicked (emit info (Some r) (Some e) w) = panicked w.
Proof.
  unfold emit. destruct (Csv.Flush _ _) as [wr out]. cbn.
  destruct (Csv.Error wr); reflexivity.
Qed.

(** C10: [getReport] never returns a nil pointer.  With an error it
    returns the zero-valued [Report], so the goroutine that goes on to use
    the record (as the one of [part_001] does) does not panic; without an
    error the record's [BitrateType] is one of the four names, never
    empty. *)
Theorem getReport_pointer_never_nil
  (mediainfo : prober) (path tmpl : string) :
  match getReport mediainfo path tmpl with
  | (Some r, Some e) =>
      r = zeroReport /\
      forall info w, panicked (emit info (Some r) (Some e) w) = panicked w
  | (Some r, None) =>
      In (BitrateType r) ["Variable"; "Constant"; "Nominal"; "Overall"]
  | (None, _) => False
  end.
Proof.
  pose proof (getReport_shape mediainfo path tmpl) as H.
  destruct (getReport mediainfo path tmpl) as [[r|] [e|]]; auto.
  split; [exact H|]. intros info w. apply emit_with_error_does_not_panic.
Qed.

(** C6, as the code has it: the width and height of a successful record
    are the signed integers [strconv.Atoi] reads from fields 2 and 3.
    They lie in the [int64] range, and one of them is negative only when
    its field starts with a minus sign. *)
Theorem width_height_are_the_parsed_ints
  (mediainfo : prober) (path tmpl : string) (r : Report) :
  getReport mediainfo path tmpl = (Some r, None) ->
  exists i0 i1 i2 i3 i4 i5 i6,
    Strings.Split (Strings.TrimSuffix (fst (mediainfo tmpl path)) newline) ","
      = [i0; i1; i2; i3; i4; i5; i6] /\
    Strconv.Atoi i2 = inr (Width r) /\
    Strconv.Atoi i3 = inr (Height r) /\
    Strconv.minInt64 <= Width r <= Strconv.maxInt64 /\
    Strconv.minInt64 <= Height r <= Strconv.maxInt64 /\
    (Width r < 0 -> exists s, i2 = String "-" s) /\
    (Height r < 0 -> exists s, i3 = String "-" s).
Proof.
  unfold getReport.
  destruct (mediainfo tmpl path) as [bytes [e|]]; [discriminate|].
  cbn [fst].
  destruct (Strings.Split _ _) as [|i0 [|i1 [|i2 [|i3 [|i4 [|i5 [|i6 [|]]]]]]]];
    try discriminate.
  destruct (atoi i2) as [e|w] eqn:Hw; [discriminate|].
  destruct (atoi i3) as [e|h] eqn:Hh; [discriminate|].
  apply atoi_inr in Hw, Hh.
  intros H.
  assert (Hr : Width r = w /\ Height r = h).
  { destruct (if negb (i4 =? "")%string then _ else _) as [[ty bs]|];
      [|discriminate].
    destruct (atoi bs); [discriminate|].
    inversion H; subst; cbn; auto. }
  destruct Hr as [-> ->].
  destruct (Atoi_range _ _ Hw) as [Rw Nw].
  destruct (Atoi_range _ _ Hh) as [Rh Nh].
  exists i0, i1, i2, i3, i4, i5, i6. repeat split; auto; lia.
Qed.

Lemma width_height_are_the_parsed_ints_witness :
  exists i0 i1 i2 i3 i4 i5 i6,
    Strings.Split (Strings.TrimSuffix ",AVC,1920,1080,5000,," newline) ","
      = [i0; i1; i2; i3; i4; i5; i6] /\
    Strconv.Atoi i2 = inr 1920 /\
    Strconv.Atoi i3 = inr 1080 /\
    Strconv.minInt64 <= 1920 <= Strconv.maxInt64 /\
    Strconv.minInt64 <= 1080 <= Strconv.maxInt64 /\
    (1920 < 0 -> exists s, i2 = String "-" s) /\
    (1080 < 0 -> exists s, i3 = String "-" s).
Proof.
  exact (width_height_are_the_parsed_ints
           (prints ",AVC,1920,1080,5000,,") "movie.mp4" "tmpl"
           (mkReport "" "AVC" F64.zero "Variable" (bitrateMbpsOf 5000)
                     1920 1080)
           eq_refl).
Defined.

(** C6, as the claim states it, fails: a probe that prints a negative
    width yields a successful record with that negative width. *)
Lemma negative_width_is_accepted :
  exists r,
    getReport (prints ",AVC,-1920,1080,5000,,") "movie.mp4" "tmpl"
      = (Some r, None) /\
    Width r < 0.
Proof.
  eexists. split; [reflexivity|]. cbn. lia.
Qed.

(** * The classifier *)

Lemma MatchString_Alt (r1 r2 : Regexp.regex) (s : string) :
  Regexp.MatchString (Regexp.Alt r1 r2) s =
  Regexp.MatchString r1 s || Regexp.MatchString r2 s.
Proof.
  induction s as [|c s IH]; cbn [Regexp.MatchString Regexp.matches].
  - now rewrite !orb_false_r.
  - rewrite IH.
    destruct (Regexp.matches r1 _ _), (Regexp.matches r2 _ _),
             (Regexp.MatchString r1 s), (Regexp.MatchString r2 s);
      reflexivity.
Qed.

Lemma matches_ext (x y z : ascii) (s : string) :
  Regexp.matches (Regexp.ext x y z) s (fun _ => true) =
  String.eqb s (String "." (String x (String y (String z EmptyString)))).
Proof.
  unfold Regexp.ext. cbn [Regexp.matches].
  destruct s as [|c0 [|c1 [|c2 [|c3 [|c4 s]]]]]; cbn [String.eqb];
    rewrite ?(Ascii.eqb_sym "."), ?(Ascii.eqb_sym x), ?(Ascii.eqb_sym y),
            ?(Ascii.eqb_sym z);
    repeat match goal with
           | |- context [Ascii.eqb ?a ?b] => destruct (Ascii.eqb a b)
           end; reflexivity.
Qed.

(** A pattern [\.xyz$] is found in [s] exactly when [s] ends in [.xyz]. *)
Lemma MatchString_ext (x y z : ascii) (s : string) :
  Regexp.MatchString (Regexp.ext x y z) s =
  Strings.HasSuffix s (String "." (String x (String y (String z EmptyString)))).
Proof.
  induction s as [|c s IH];
    cbn [Regexp.MatchString Strings.HasSuffix]; rewrite matches_ext.
  - reflexivity.
  - now rewrite IH.
Qed.

Lemma videoFileRegex_suffix (name : string) :
  Regexp.MatchString videoFileRegex name = ends_in_video_ext name.
Proof.
  unfold videoFileRegex, ends_in_video_ext.
  rewrite !MatchString_Alt, !MatchString_ext, !orb_assoc. reflexivity.
Qed.

Lemma subtitleFileRegex_suffix (name : string) :
  Regexp.MatchString subtitleFileRegex name = ends_in_subtitle_ext name.
Proof.
  unfold subtitleFileRegex, ends_in_subtitle_ext.
  rewrite !MatchString_Alt, !MatchString_ext, !orb_assoc. reflexivity.
Qed.

Lemma HasSuffix_length (t u : string) :
  Strings.HasSuffix t u = true -> (String.length u <= String.length t)%nat.
Proof.
  induction t as [|d t IHt]; cbn [Strings.HasSuffix].
  - rewrite orb_false_r. intros H. apply String.eqb_eq in H. now subst.
  - intros H. apply orb_prop in H. destruct H as [H|H].
    + apply String.eqb_eq in H. now subst.
    + apply IHt in H. cbn [String.length]. lia.
Qed.

(** Two suffixes of one string that have the same length are equal. *)
Lemma HasSuffix_same_length (s a b : string) :
  Strings.HasSuffix s a = true -> Strings.HasSuffix s b = true ->
  String.length a = String.length b -> a = b.
Proof.
  intros Ha Hb Hlen.
  induction s as [|c s IH]; cbn [Strings.HasSuffix] in Ha, Hb.
  - rewrite orb_false_r in Ha, Hb.
    apply String.eqb_eq in Ha, Hb. congruence.
  - apply orb_prop in Ha, Hb.
    destruct Ha as [Ha|Ha], Hb as [Hb|Hb].
    + apply String.eqb_eq in Ha, Hb. congruence.
    + apply String.eqb_eq in Ha. subst a.
      apply HasSuffix_length in Hb. cbn [String.length] in Hlen. lia.
    + apply String.eqb_eq in Hb. subst b.
      apply HasSuffix_length in Ha. cbn [String.length] in Hlen. lia.
    + now apply IH.
Qed.

Lemma video_ext_not_subtitle (name : string) :
  ends_in_video_ext name = true -> ends_in_subtitle_ext name = false.
Proof.
  unfold ends_in_video_ext, ends_in_subtitle_ext. intros Hv.
  apply not_true_is_false. intros Hs.
  repeat (apply orb_prop in Hv; destruct Hv as [Hv|Hv]);
    repeat (apply orb_prop in Hs; destruct Hs as [Hs|Hs]);
    pose proof (HasSuffix_same_length name _ _ Hv Hs eq_refl) as E;
    discriminate E.
Qed.

(** The callback on a regular file, by the two patterns. *)
Lemma callback_on_file
  (goroutine : spawner) (path name : string) (size : Z) (w : world) :
  callback goroutine (mkVisit path (Some (mkInfo name size false)) None) w =
  if ends_in_subtitle_ext name then (w, Return None)
  else if ends_in_video_ext name
       then (w, Go (goroutine path (mkInfo name size false)))
       else (log (LogSkipping name) w, Return None).
Proof.
  unfold callback. cbn.
  rewrite videoFileRegex_suffix, subtitleFileRegex_suffix.
  destruct (ends_in_subtitle_ext name); [reflexivity|].
  destruct (ends_in_video_ext name); reflexivity.
Qed.

Lemma callback_on_video_file
  (goroutine : spawner) (path name : string) (size : Z) (w : world) :
  ends_in_video_ext name = true ->
  callback goroutine (mkVisit path (Some (mkInfo name size false)) None) w =
  (w, Go (goroutine path (mkInfo name size false))).
Proof.
  intros H. rewrite callback_on_file.
  now rewrite (video_ext_not_subtitle _ H), H.
Qed.

(** C8: a regular file whose name ends in [.mp4], [.mkv], [.avi] or
    [.mov] is classified Video and a goroutine is started to probe it; one
    whose name ends in [.srt], [.idx] or [.sub] is classified Subtitle and
    skipped without a word (this case stands before the video case);
    every other file is classified Other and skipped with a logged notice. *)
Theorem callback_classifies_by_extension
  (goroutine : spawner) (path name : string) (size : Z) (w : world) :
  let info := mkInfo name size false in
  let v := mkVisit path (Some info) None in
  (ends_in_video_ext name = true ->
   classify name = Video /\
   callback goroutine v w = (w, Go (goroutine path info))) /\
  (ends_in_subtitle_ext name = true ->
   classify name = Subtitle /\
   callback goroutine v w = (w, Return None)) /\
  (ends_in_video_ext name = false -> ends_in_subtitle_ext name = false ->
   classify name = Other /\
   callback goroutine v w = (log (LogSkipping name) w, Return None) /\
   stderr (fst (callback goroutine v w)) =
     (stderr w ++ [LogSkipping name])%list /\
   stdout (fst (callback goroutine v w)) = stdout w /\
   writer (fst (callback goroutine v w)) = writer w).
Proof.
  intros info v. unfold classify, callback. cbn.
  rewrite videoFileRegex_suffix, subtitleFileRegex_suffix.
  repeat split.
  - rewrite (video_ext_not_subtitle _ H), H. reflexivity.
  - rewrite (video_ext_not_subtitle _ H), H. reflexivity.
  - now rewrite H.
  - now rewrite H.
  - now rewrite H0, H.
  - now rewrite H0, H.
  - now rewrite H0, H.
  - now rewrite H0, H.
  - now rewrite H0, H.
Qed.

Lemma callback_classifies_by_extension_witness :
  classify "movie.mp4" = Video /\
  callback (goroutine_part000 (prints ",AVC,1920,1080,5000,,") "tmpl")
           (file_visit "root" "movie.mp4" 10485760)
           (shared (start good_stream [])) =
  (shared (start good_stream []),
   Go (goroutine_part000 (prints ",AVC,1920,1080,5000,,") "tmpl"
                         "root/movie.mp4" (mkInfo "movie.mp4" 10485760 false))).
Proof.
  apply (proj1 (callback_classifies_by_extension
                  (goroutine_part000 (prints ",AVC,1920,1080,5000,,") "tmpl")
                  "root/movie.mp4" "movie.mp4" 10485760
                  (shared (start good_stream [])))).
  reflexivity.
Defined.

(** * Runs *)

Section RunFacts.

Variable maxSem : nat.
Variable goroutine : spawner.

Lemma steps_trans (c1 c2 c3 : config) :
  steps maxSem goroutine c1 c2 -> steps maxSem goroutine c2 c3 ->
  steps maxSem goroutine c1 c3.
Proof.
  induction 1; intros; [assumption|]. econstructor; eauto.
Qed.

Lemma steps_invariant (P : config -> Prop) :
  (forall c c', P c -> step maxSem goroutine c c' -> P c') ->
  forall c c', steps maxSem goroutine c c' -> P c -> P c'.
Proof.
  intros Hstep c c' H. induction H; intros; eauto.
Qed.

Lemma app_cons_single {A} (pre post : list A) (x y : A) :
  (pre ++ x :: post)%list = [y] -> pre = [] /\ x = y /\ post = [].
Proof.
  destruct pre as [|p pre]; cbn; intros H.
  - inversion H. auto.
  - inversion H. now destruct pre.
Qed.

(** Once the walk has returned it makes no further visit, and no
    goroutine is started any more. *)
Lemma walk_over_stays_over (c c' : config) :
  steps maxSem goroutine c c' -> walk c = [] ->
  walk c' = [] /\ (List.length (running c') <= List.length (running c))%nat.
Proof.
  induction 1 as [c|c1 c2 c3 Hs _ IH]; intros Hw; [auto|].
  inversion Hs; subst; cbn in Hw; try discriminate. subst vs.
  destruct (IH eq_refl) as [IH1 IH2]. split; [exact IH1|].
  cbn in *. rewrite length_app in *. cbn in *.
  destruct g; cbn in *; rewrite ?length_app in *; cbn in *; lia.
Qed.

(** A goroutine alone in flight can run to its end, or to a panic. *)
Lemma goroutine_runs (vs : list visit) (g : list action) (w : world) :
  exists rs,
    steps maxSem goroutine (mkConfig vs (enter g []) w)
          (mkConfig vs rs (perform_all g w)) /\
    (panicked (perform_all g w) = true \/ rs = []).
Proof.
  revert w. induction g as [|a g IH]; intros w.
  - exists []. split; [apply steps_refl|now right].
  - cbn [perform_all enter app].
    destruct (panicked w) eqn:Hp.
    + exists [a :: g]. split; [apply steps_refl|now left].
    + destruct (IH (perform a w)) as [rs [Hs Hf]].
      exists rs. split; [|exact Hf].
      eapply steps_step; [|exact Hs].
      exact (step_action maxSem goroutine vs [] a g [] w Hp).
Qed.

(** [run] is one of the runs: the schedule in which each goroutine ends
    before the next visit. *)
Lemma run_is_a_run (vs : list visit) (w : world) :
  (1 <= maxSem)%nat ->
  exists c,
    steps maxSem goroutine (mkConfig vs [] w) c /\
    shared c = run goroutine vs w /\
    finished c.
Proof.
  intros Hsem. revert w. induction vs as [|v vs IH]; intros w.
  - exists (mkConfig [] [] w). repeat split; [apply steps_refl|now right].
  - cbn [run]. destruct (panicked w) eqn:Hp.
    + exists (mkConfig (v :: vs) [] w).
      repeat split; [apply steps_refl|now left].
    + destruct (callback goroutine v w) as [w' [[e|]|g|]] eqn:Hcb.
      * exists (mkConfig [] [] w').
        repeat split; [|now right].
        eapply steps_step; [|apply steps_refl].
        eapply step_halt; eassumption.
      * destruct (IH w') as [c [Hs [Hw Hf]]].
        exists c. repeat split; auto.
        eapply steps_step; [|exact Hs].
        eapply step_return; eassumption.
      * destruct (goroutine_runs vs g w') as [rs [Hs [Hf| ->]]].
        -- exists (mkConfig vs rs (perform_all g w')).
           assert (Hrun : forall l u,
                     panicked u = true -> run goroutine l u = u).
           { intros l u Hu. destruct l; cbn; [reflexivity|now rewrite Hu]. }
           repeat split; [|now rewrite Hrun|now left].
           eapply steps_step; [|exact Hs].
           eapply step_go; [eassumption|eassumption|cbn; lia].
        -- destruct (IH (perform_all g w')) as [c [Hs' [Hw Hf]]].
           exists c. repeat split; auto.
           eapply steps_step;
             [eapply step_go; [eassumption|eassumption|cbn; lia]|].
           eapply steps_trans; eassumption.
      * exists (mkConfig vs [] w').
        assert (Hp' : panicked w' = true).
        { unfold callback in Hcb.
          destruct (v_err v); [discriminate|].
          destruct (v_info v) as [info|]; [|now inversion Hcb].
          destruct (fi_IsDir info); [discriminate|].
          destruct (Regexp.MatchString subtitleFileRegex _); [discriminate|].
          destruct (negb _); discriminate. }
        repeat split; [|now left].
        eapply steps_step; [|apply steps_refl].
        eapply step_panic; eassumption.
Qed.

End RunFacts.

(** ** The walk *)

(** C9: when the callback is handed an access error it logs the path
    with the error (one more line on standard error, nothing else in the
    shared state changes) and returns the error to [Walk]; [Walk] then
    returns, so no entry after this one is visited, and no goroutine is
    started any more. *)
Theorem access_failure_is_logged_and_ends_the_walk
  (maxSem : nat) (goroutine : spawner)
  (v : visit) (e : error) (rest : list visit)
  (rs : list (list action)) (w : world) :
  v_err v = Some e ->
  panicked w = false ->
  let w' :=
    mkWorld (writer w) (stdout w)
            (stderr w ++ [LogAccessFailure (v_path v) e]) false in
  callback goroutine v w = (w', Return (Some e)) /\
  (forall c', step maxSem goroutine (mkConfig (v :: rest) rs w) c' ->
     walk c' = v :: rest \/ c' = mkConfig [] rs w') /\
  (forall c'', steps maxSem goroutine (mkConfig [] rs w') c'' ->
     walk c'' = [] /\ (List.length (running c'') <= List.length rs)%nat) /\
  run goroutine (v :: rest) w = w' /\
  stderr (run goroutine (v :: rest) w) =
    (stderr w ++ [LogAccessFailure (v_path v) e])%list.
Proof.
  intros He Hp w'.
  assert (Hcb : callback goroutine v w = (w', Return (Some e))).
  { unfold callback. rewrite He. unfold log, w'. now rewrite Hp. }
  split; [exact Hcb|]. split; [|split; [|split]].
  - intros c' Hs. inversion Hs; subst;
      try (rewrite Hcb in *; match goal with
                             | H : (_, _) = (_, _) |- _ => inversion H; subst
                             end); auto.
  - intros c'' Hs.
    exact (walk_over_stays_over maxSem goroutine _ _ Hs eq_refl).
  - cbn [run]. now rewrite Hp, Hcb.
  - cbn [run]. now rewrite Hp, Hcb.
Qed.

Lemma access_failure_is_logged_and_ends_the_walk_witness :
  let w := run (goroutine_part000 (prints ",AVC,1920,1080,5000,,") "tmpl")
      [mkVisit "root/locked" (Some (mkInfo "locked" 4096 true))
               (Some (OsError "permission denied"));
       file_visit "root" "movie.mp4" 10485760]
      (shared (start good_stream [])) in
  stderr w =
    [LogAccessFailure "root/locked" (OsError "permission denied")] /\
  Csv.written (stdout w) = [] /\ panicked w = false.
Proof.
  pose proof (access_failure_is_logged_and_ends_the_walk
           maxSem_part000
           (goroutine_part000 (prints ",AVC,1920,1080,5000,,") "tmpl")
           (mkVisit "root/locked" (Some (mkInfo "locked" 4096 true))
                    (Some (OsError "permission denied")))
           (OsError "permission denied")
           [file_visit "root" "movie.mp4" 10485760] []
           (shared (start good_stream []))
           eq_refl eq_refl) as [_ [_ [_ [H _]]]].
  cbv zeta. rewrite H. repeat split.
Defined.

(** ** A probe without a usable bitrate *)

(** [emit] on a writer and a stream that work: the buffered records and
    the new row reach the stream, and nothing else changes. *)
Lemma emit_on_working_stream
  (info : FileInfo) (r : Report) (err : option error) (w : world) :
  Csv.werr (writer w) = None ->
  Csv.faults (stdout w) = [] ->
  emit info (Some r) err w =
  mkWorld (Csv.mkWriter [] None)
          (Csv.mkStream (Csv.written (stdout w) ++
                         Csv.pending (writer w) ++ [row_of info r]) [])
          (stderr w) (panicked w).
Proof.
  intros Hw Hf. unfold emit, Csv.Write, Csv.Flush, Csv.os_write.
  rewrite Hw. cbn [Csv.werr Csv.pending]. rewrite Hf.
  destruct (Csv.pending (writer w) ++ _ :: _)%list eqn:E.
  - destruct (Csv.pending (writer w)); discriminate.
  - rewrite <- E. reflexivity.
Qed.




(** ** The header *)

Lemma silent_callback (goroutine : spawner) (v : visit) (w : world) :
  silent v = true -> callback goroutine v w = (w, Return None).
Proof.
  unfold silent, callback.
  destruct (v_err v); [discriminate|].
  destruct (v_info v) as [info|]; [|discriminate].
  destruct (fi_IsDir info); [reflexivity|]. cbn. now intros ->.
Qed.

(** While only silent visits are made, nothing reaches the stream: the
    header stays in the writer's buffer. *)
Lemma silent_walk_flushes_nothing
  (maxSem : nat) (goroutine : spawner) (out : Csv.ostream)
  (vs : list visit) (c : config) :
  forallb silent vs = true ->
  steps maxSem goroutine (start out vs) c ->
  running c = [] /\
  shared c = mkWorld (Csv.mkWriter [headers] None) out [] false.
Proof.
  intros Hvs Hs.
  refine (proj2 (steps_invariant maxSem goroutine
            (fun c => forallb silent (walk c) = true /\ running c = [] /\
                      shared c = mkWorld (Csv.mkWriter [headers] None) out
                                         [] false)
            _ _ _ Hs _)).
  - clear. intros c c' [Hw [Hr Hsh]] Hstep.
    inversion Hstep; subst; cbn in *;
      try (apply andb_prop in Hw; destruct Hw as [Hv Hrest];
           rewrite (silent_callback goroutine _ _ Hv) in *;
           match goal with
           | H : (_, _) = (_, _) |- _ => inversion H; subst
           end; auto).
    destruct pre; discriminate.
  - auto.
Qed.

(** C3, evaluated: with only [show.srt] under the root no goroutine is
    started, so nothing ever calls [Flush]: in every state of every run
    the header is still in the writer's buffer, standard output is empty
    and nothing is logged; and the run does end in such a state. *)
Theorem subtitle_only_scan_writes_no_header
  (maxSem : nat) (goroutine : spawner) :
  let vs := [root_dir; file_visit "root" "show.srt" 1024] in
  (forall c, steps maxSem goroutine (start good_stream vs) c ->
     Csv.written (stdout (shared c)) = [] /\
     stderr (shared c) = [] /\
     Csv.pending (writer (shared c)) = [headers]) /\
  (exists c, steps maxSem goroutine (start good_stream vs) c /\
             finished c /\ Csv.written (stdout (shared c)) = []).
Proof.
  intros vs. split.
  - intros c Hs.
    destruct (silent_walk_flushes_nothing maxSem goroutine good_stream vs c
                eq_refl Hs) as [_ ->].
    repeat split.
  - exists (mkConfig [] [] (shared (start good_stream vs))).
    split; [|split; [now right|reflexivity]].
    eapply steps_step; [apply step_return; [reflexivity|reflexivity]|].
    eapply steps_step; [apply step_return; [reflexivity|reflexivity]|].
    apply steps_refl.
Qed.

(** ** One video file *)

Lemma perform_all_panicked (g : list action) (w : world) :
  panicked w = true -> perform_all g w = w.
Proof.
  intros H. destruct g; cbn; [reflexivity|now rewrite H].
Qed.

(** With a single visit that starts the goroutine [g], every run that
    ends, whatever the schedule, ends in the state [g] leaves when it is
    run to its end or to a panic. *)
Lemma single_goroutine_runs
  (maxSem : nat) (goroutine : spawner) (v : visit) (g : list action)
  (w0 : world) (c : config) :
  callback goroutine v w0 = (w0, Go g) ->
  panicked w0 = false ->
  steps maxSem goroutine (mkConfig [v] [] w0) c ->
  finished c ->
  shared c = perform_all g w0.
Proof.
  intros Hcb Hp Hs Hfin.
  assert (Inv : c = mkConfig [v] [] w0 \/
                exists g' w', c = mkConfig [] (enter g' []) w' /\
                              perform_all g' w' = perform_all g w0).
  { refine (steps_invariant maxSem goroutine
              (fun c => c = mkConfig [v] [] w0 \/
                        exists g' w', c = mkConfig [] (enter g' []) w' /\
                                      perform_all g' w' = perform_all g w0)
              _ _ _ Hs (or_introl eq_refl)).
    clear c Hs Hfin. intros c c' [->|[g' [w' [-> Hall]]]] Hstep.
    - inversion Hstep; subst;
        try (rewrite Hcb in *;
             match goal with
             | H : (_, _) = (_, _) |- _ => inversion H; subst
             end).
      + right. do 2 eexists. split; reflexivity.
      + destruct pre; discriminate.
    - inversion Hstep; subst.
      destruct g' as [|a' g']; cbn [enter app] in *.
      + destruct pre; discriminate.
      + match goal with
        | H : (_ ++ _ :: _)%list = [_] |- _ =>
            apply app_cons_single in H; destruct H as [-> [E ->]]
        end.
        inversion E; subst. right. exists g', (perform a' w').
        split; [reflexivity|].
        rewrite <- Hall. cbn [perform_all].
        match goal with H : panicked w' = false |- _ => now rewrite H end. }
  destruct Inv as [->|[g' [w' [-> Hall]]]].
  - destruct Hfin as [Hf|[Hf _]]; cbn in Hf; congruence.
  - cbn [shared]. rewrite <- Hall.
    destruct Hfin as [Hf|[_ Hf]]; cbn in Hf.
    + now rewrite perform_all_panicked.
    + destruct g'; [reflexivity|discriminate].
Qed.

(** ** A failing stream *)

(** When the record that reaches [emit] came without an error and the
    writer reports one after the flush, the goroutine panics on
    [err.Error()] and logs nothing. *)
Lemma emit_without_error_panics_on_flush_failure
  (info : FileInfo) (r : Report) (w : world) :
  Csv.Error (writer (emit info (Some r) None w)) <> None ->
  panicked (emit info (Some r) None w) = true /\
  stderr (emit info (Some r) None w) = stderr w.
Proof.
  unfold emit. destruct (Csv.Flush _ _) as [wr out].
  destruct (Csv.Error wr) eqn:E; cbn; [auto|].
  rewrite E. congruence.
Qed.

(** C4, evaluated: a video file is probed without error and the first
    write to the stream fails.  In both variants every run that ends has
    ended in a panic, with nothing logged: the flush failure is reported
    through [err], which is nil on this path. *)
Theorem flush_failure_after_good_probe_panics
  (maxSem : nat) (mediainfo : prober) (tmpl path name : string) (size : Z)
  (r : Report) :
  ends_in_video_ext name = true ->
  getReport mediainfo path tmpl = (Some r, None) ->
  let v := mkVisit path (Some (mkInfo name size false)) None in
  forall goroutine,
    goroutine = goroutine_part000 mediainfo tmpl \/
    goroutine = goroutine_part001 mediainfo tmpl ->
    (forall c, steps maxSem goroutine (start full_stream [v]) c ->
               finished c ->
               panicked (shared c) = true /\ stderr (shared c) = [] /\
               Csv.written (stdout (shared c)) = []) /\
    panicked (run goroutine [v] (shared (start full_stream [v]))) = true.
Proof.
  intros Hname Hget v goroutine Hvar.
  assert (Hg : goroutine path (mkInfo name size false) =
               [ActEmit (mkInfo name size false) (Some r) None]).
  { destruct Hvar as [-> | ->];
      unfold goroutine_part000, goroutine_part001; now rewrite Hget. }
  pose proof (callback_on_video_file goroutine path name size
                (shared (start full_stream [v])) Hname) as Hcb.
  fold v in Hcb.
  split.
  - intros c Hs Hfin.
    rewrite (single_goroutine_runs maxSem goroutine v _ _ c Hcb eq_refl
               Hs Hfin).
    rewrite Hg. cbn. auto.
  - cbn [run]. change (panicked (shared (start full_stream [v]))) with false.
    cbv iota. rewrite Hcb, Hg. reflexivity.
Qed.

Lemma flush_failure_after_good_probe_panics_witness :
  panicked
    (run (goroutine_part000 (prints ",AVC,1920,1080,2097152,,") "tmpl")
         [file_visit "root" "movie.mp4" 10485760]
         (shared (start full_stream
                        [file_visit "root" "movie.mp4" 10485760]))) = true.
Proof.
  apply (flush_failure_after_good_probe_panics
           maxSem_part000 (prints ",AVC,1920,1080,2097152,,") "tmpl"
           "root/movie.mp4" "movie.mp4" 10485760
           (mkReport "" "AVC" F64.zero "Variable" (bitrateMbpsOf 2097152)
                     1920 1080)
           eq_refl eq_refl
           (goroutine_part000 (prints ",AVC,1920,1080,2097152,,") "tmpl")
           (or_introl eq_refl)).
Defined.

(** ** One outcome per file *)

(** C1, evaluated on [part_001]: a video file whose probe fails.  The
    goroutine logs the error and, having no [return], goes on to write a
    row of zero values for the same file: every run that ends has both
    the logged error and the row. *)
Theorem failed_probe_in_part001_logs_and_writes_a_row
  (maxSem : nat) (mediainfo : prober) (tmpl path name : string) (size : Z)
  (r : Report) (e : error) :
  ends_in_video_ext name = true ->
  getReport mediainfo path tmpl = (Some r, Some e) ->
  let info := mkInfo name size false in
  let v := mkVisit path (Some info) None in
  goroutine_part001 mediainfo tmpl path info =
    [ActLog (LogError e); ActEmit info (Some r) (Some e)] /\
  (forall c,
     steps maxSem (goroutine_part001 mediainfo tmpl)
           (start good_stream [v]) c ->
     finished c ->
     stderr (shared c) = [LogError e] /\
     Csv.written (stdout (shared c)) = [headers; row_of info zeroReport]) /\
  (let w := run (goroutine_part001 mediainfo tmpl) [v]
                (shared (start good_stream [v])) in
   stderr w = [LogError e] /\
   Csv.written (stdout w) = [headers; row_of info zeroReport]).
Proof.
  intros Hname Hget info v.
  assert (Hr : r = zeroReport).
  { pose proof (getReport_shape mediainfo path tmpl) as H.
    rewrite Hget in H. exact H. }
  subst r.
  assert (Hg : goroutine_part001 mediainfo tmpl path info =
               [ActLog (LogError e); ActEmit info (Some zeroReport) (Some e)]).
  { unfold goroutine_part001. now rewrite Hget. }
  pose proof (callback_on_video_file
                (goroutine_part001 mediainfo tmpl) path name size
                (shared (start good_stream [v])) Hname) as Hcb.
  fold info v in Hcb.
  assert (Hall : perform_all
                   (goroutine_part001 mediainfo tmpl path info)
                   (shared (start good_stream [v])) =
                 mkWorld (Csv.mkWriter [] None)
                         (Csv.mkStream [headers; row_of info zeroReport] [])
                         [LogError e] false).
  { rewrite Hg. cbn [perform_all perform start shared panicked log].
    cbn [writer stdout stderr panicked].
    rewrite emit_on_working_stream by reflexivity. reflexivity. }
  split; [exact Hg|]. split.
  - intros c Hs Hfin.
    rewrite (single_goroutine_runs maxSem _ v _ _ c Hcb eq_refl Hs Hfin).
    rewrite Hall. split; reflexivity.
  - cbn [run]. change (panicked (shared (start good_stream [v]))) with false.
    cbv iota. rewrite Hcb, Hall. split; reflexivity.
Qed.

Lemma failed_probe_in_part001_logs_and_writes_a_row_witness :
  let w := run (goroutine_part001 (fails_with (ExecError "exit status 1"))
                                  "tmpl")
               [file_visit "root" "clip.mov" 2048]
               (shared (start good_stream [])) in
  stderr w = [LogError (ExecError "exit status 1")] /\
  Csv.written (stdout w) =
    [headers; ["clip.mov"; ""; "0.00"; ""; "0.000"; "0"; "0"]].
Proof.
  apply (failed_probe_in_part001_logs_and_writes_a_row
           maxSem_part001 (fails_with (ExecError "exit status 1")) "tmpl"
           "root/clip.mov" "clip.mov" 2048 zeroReport
           (ExecError "exit status 1") eq_refl eq_refl).
Defined.

(** X1: [part_000] keeps the invariant: its goroutine has one step, which
    either logs the probe error and leaves the writer and the stream as
    they were, or hands one row to the writer and logs nothing; in the
    second case the row reaches the stream unless the process has
    panicked. *)
Theorem part000_one_outcome_per_file
  (mediainfo : prober) (tmpl path : string) (info : FileInfo) (w : world) :
  let g := goroutine_part000 mediainfo tmpl path info in
  match getReport mediainfo path tmpl with
  | (_, Some e) =>
      g = [ActLog (LogError e)] /\
      perform_all g w = (if panicked w then w else log (LogError e) w) /\
      (panicked w = false ->
       stderr (perform_all g w) = (stderr w ++ [LogError e])%list /\
       stdout (perform_all g w) = stdout w /\
       writer (perform_all g w) = writer w)
  | (Some r, None) =>
      g = [ActEmit info (Some r) None] /\
      stderr (perform_all g w) = stderr w /\
      (panicked (perform_all g w) = false ->
       Csv.written (stdout (perform_all g w)) =
       (Csv.written (stdout w) ++ Csv.pending (writer w) ++
        [row_of info r])%list)
  | (None, None) => False
  end.
Proof.
  intros g. subst g. unfold goroutine_part000.
  pose proof (getReport_shape mediainfo path tmpl) as Hnil.
  destruct (getReport mediainfo path tmpl) as [[r|] [e|]];
    cbn in Hnil; try contradiction.
  - split; [reflexivity|]. cbn.
    destruct (panicked w); [split; [reflexivity|discriminate]|].
    repeat split.
  - split; [reflexivity|].
    destruct w as [[pend [e|]] [wr fl] logs [|]]; cbn;
      try (split; [reflexivity|congruence]).
    unfold emit, Csv.Write, Csv.Flush, Csv.os_write. cbn.
    destruct (pend ++ _ :: _)%list eqn:E.
    { destruct pend; discriminate. }
    rewrite <- E.
    destruct fl as [|[e|] rest]; cbn;
      (split; [reflexivity|]); intros; try discriminate; reflexivity.
Qed.

(** * Floating-point rounding *)

(** ** The number of bits of a mantissa *)
Lemma digits2_size (p : positive) : digits2_pos p = Pos.size p.
Proof. induction p; cbn; congruence. Qed.

Lemma Zdigits2_bounds (p : positive) :
  2 ^ (Zdigits2 (Zpos p) - 1) <= Zpos p < 2 ^ Zdigits2 (Zpos p).
Proof.
  cbn [Zdigits2]. rewrite digits2_size.
  pose proof (Pos.size_gt p) as Hgt. pose proof (Pos.size_le p) as Hle.
  assert (E : Zpos (2 ^ Pos.size p) = 2 ^ Zpos (Pos.size p)).
  { now rewrite Pos2Z.inj_pow. }
  split.
  - apply Pos2Z.pos_le_pos in Hle. rewrite E in Hle.
    replace (Zpos (Pos.size p)) with (Z.succ (Zpos (Pos.size p) - 1)) in Hle
      by lia.
    rewrite Z.pow_succ_r in Hle by lia.
    change (Zpos p~0) with (2 * Zpos p) in Hle. lia.
  - apply Pos2Z.pos_lt_pos in Hgt. now rewrite E in Hgt.
Qed.

Lemma Zdigits2_unique (x d : Z) :
  0 < d -> 2 ^ (d - 1) <= x < 2 ^ d -> Zdigits2 x = d.
Proof.
  intros Hd [Hlo Hhi].
  assert (Hx : 0 < x) by (pose proof (Z.pow_pos_nonneg 2 (d - 1)); lia).
  destruct x as [|p|p]; try lia.
  pose proof (Zdigits2_bounds p) as [Blo Bhi].
  set (k := Zdigits2 (Zpos p)) in *.
  assert (0 < k) by (subst k; cbn; lia).
  destruct (Z.lt_trichotomy k d) as [H1|[H1|H1]]; [|exact H1|].
  - assert (2 ^ k <= 2 ^ (d - 1)) by (apply Z.pow_le_mono_r; lia). lia.
  - assert (2 ^ d <= 2 ^ (k - 1)) by (apply Z.pow_le_mono_r; lia). lia.
Qed.

(** ** Shifting right keeps track of the quotient *)
Lemma shr_1_nonneg (m : Z) (r s : bool) :
  0 <= m ->
  shr_1 (Build_shr_record m r s) =
  Build_shr_record (m / 2) (Z.odd m) (r || s).
Proof.
  intros Hm. destruct m as [|p|p]; [reflexivity| |lia].
  destruct p as [p|p|]; cbn [shr_1 Z.odd].
  - rewrite Pos2Z.inj_xI. f_equal.
    apply Z.div_unique with 1; lia.
  - rewrite Pos2Z.inj_xO. f_equal.
    apply Z.div_unique with 0; lia.
  - reflexivity.
Qed.

Lemma tracks_shr_1 (a b : Z) (mrs : shr_record) :
  0 <= a -> 0 < b -> tracks a b mrs -> tracks a (b * 2) (shr_1 mrs).
Proof.
  intros Ha Hb [Hm Hl]. destruct mrs as [m r s]. cbn [shr_m] in Hm.
  assert (Hm0 : 0 <= m) by (subst m; apply Z.div_pos; lia).
  rewrite (shr_1_nonneg m r s Hm0).
  pose proof (Z.div_mod a b ltac:(lia)) as Hab.
  pose proof (Z.mod_pos_bound a b Hb) as Hr.
  pose proof (Z.div_mod m 2 ltac:(lia)) as Hm2.
  pose proof (Z.mod_pos_bound m 2 ltac:(lia)) as Hr2.
  set (q := a / b) in *. set (r0 := a mod b) in *.
  assert (Hq : a / (b * 2) = m / 2).
  { symmetry. apply Z.div_unique with (b * (m mod 2) + r0); [nia|nia]. }
  assert (Hrem : a mod (b * 2) = b * (m mod 2) + r0).
  { symmetry. apply Z.mod_unique with (m / 2); [nia|nia]. }
  split; [cbn [shr_m]; now rewrite Hq|].
  rewrite Hrem. rewrite Zmod_odd.
  assert (Hrs : (r || s)%bool = negb (r0 =? 0)).
  { unfold loc_rem in Hl. cbn [loc_of_shr_record] in Hl.
    destruct (Z.eqb_spec r0 0); destruct r, s; cbn [orb negb] in *;
      try reflexivity; try discriminate. }
  rewrite Hrs. unfold loc_rem. cbn [loc_of_shr_record].
  destruct (Z.odd m).
  - rewrite Z.mul_1_r.
    destruct (Z.eqb_spec (b + r0) 0); [lia|].
    destruct (Z.eqb_spec r0 0); cbn [negb].
    + replace (2 * (b + r0) ?= b * 2) with Eq; [reflexivity|].
      symmetry. apply Z.compare_eq_iff. lia.
    + replace (2 * (b + r0) ?= b * 2) with Gt; [reflexivity|].
      symmetry. apply Z.compare_gt_iff. lia.
  - rewrite Z.mul_0_r, Z.add_0_l.
    destruct (Z.eqb_spec r0 0); cbn [negb].
    + reflexivity.
    + replace (2 * r0 ?= b * 2) with Lt; [reflexivity|].
      symmetry. apply Z.compare_lt_iff. lia.
Qed.

Lemma tracks_iter_pos (p : positive) : forall (a b : Z) (mrs : shr_record),
  0 <= a -> 0 < b -> tracks a b mrs ->
  tracks a (b * 2 ^ Zpos p) (iter_pos shr_1 p mrs).
Proof.
  induction p as [p IH|p IH|]; intros a b mrs Ha Hb H; cbn [iter_pos].
  - replace (b * 2 ^ Zpos p~1) with (b * 2 * 2 ^ Zpos p * 2 ^ Zpos p).
    + apply IH; [lia| |].
      * pose proof (Z.pow_pos_nonneg 2 (Zpos p)); nia.
      * apply IH; [lia|lia|]. now apply tracks_shr_1.
    + replace (Zpos p~1) with (Zpos p + Zpos p + 1) by lia.
      rewrite !Z.pow_add_r, Z.pow_1_r by lia. ring.
  - replace (b * 2 ^ Zpos p~0) with (b * 2 ^ Zpos p * 2 ^ Zpos p).
    + apply IH; [lia| |].
      * pose proof (Z.pow_pos_nonneg 2 (Zpos p)); nia.
      * now apply IH.
    + replace (Zpos p~0) with (Zpos p + Zpos p) by lia.
      rewrite Z.pow_add_r by lia. ring.
  - rewrite Z.pow_1_r. now apply tracks_shr_1.
Qed.

Lemma tracks_of_loc (a b : Z) :
  tracks a b (shr_record_of_loc (a / b) (loc_rem (a mod b) b)).
Proof.
  unfold tracks. destruct (loc_rem (a mod b) b) as [|[| |]]; cbn; auto.
Qed.

Lemma tracks_shr (a b e n : Z) (mrs : shr_record) :
  0 <= a -> 0 < b -> 0 <= n -> tracks a b mrs ->
  tracks a (b * 2 ^ n) (fst (shr mrs e n)) /\ snd (shr mrs e n) = e + n.
Proof.
  intros Ha Hb Hn H. unfold shr. destruct n as [|p|p]; [| |lia].
  - cbn. rewrite Z.mul_1_r, Z.add_0_r. auto.
  - cbn [fst snd]. split; [now apply tracks_iter_pos|reflexivity].
Qed.

(** ** The nearest-even quotient *)
Lemma rne_div_spec (a b : Z) :
  0 <= a -> 0 < b ->
  let k := rne_div a b in
  (2 * k - 1) * b <= 2 * a <= (2 * k + 1) * b /\
  (2 * a = (2 * k - 1) * b -> Z.even k = true) /\
  (2 * a = (2 * k + 1) * b -> Z.even k = true) /\
  (k = a / b \/ k = a / b + 1).
Proof.
  intros Ha Hb. unfold rne_div, loc_rem.
  pose proof (Z.div_mod a b ltac:(lia)) as Hab.
  pose proof (Z.mod_pos_bound a b Hb) as Hr.
  set (q := a / b) in *. set (r := a mod b) in *.
  destruct (Z.eqb_spec r 0) as [E|E]; cbn [round_nearest_even].
  - repeat split; nia.
  - destruct (Z.compare_spec (2 * r) b) as [C|C|C]; cbn [round_nearest_even].
    + destruct (Z.even q) eqn:Ev.
      * repeat split; try nia; auto.
      * repeat split; try nia; auto.
        intros _. rewrite Z.even_add, Ev. reflexivity.
    + repeat split; nia.
    + repeat split; nia.
Qed.

Lemma rne_div_mono (a b a' b' : Z) :
  0 <= a -> 0 < b -> 0 <= a' -> 0 < b' ->
  a * b' <= a' * b -> rne_div a b <= rne_div a' b'.
Proof.
  intros Ha Hb Ha' Hb' Hle.
  destruct (rne_div_spec a b Ha Hb) as [[L1 U1] [EL1 [EU1 _]]].
  destruct (rne_div_spec a' b' Ha' Hb') as [[L2 U2] [EL2 [EU2 _]]].
  set (k := rne_div a b) in *. set (k' := rne_div a' b') in *.
  destruct (Z_le_gt_dec k k') as [H|H]; [exact H|exfalso].
  assert (K : k' + 1 <= k) by lia.
  assert (A1 : (2 * k' + 1) * b <= 2 * a) by nia.
  assert (A2 : (2 * k' + 1) * (b * b') <= 2 * a * b') by nia.
  assert (A3 : 2 * a' * b <= (2 * k' + 1) * (b' * b)) by nia.
  assert (E1 : 2 * a * b' = (2 * k' + 1) * (b * b')) by nia.
  assert (E2 : 2 * a' * b = (2 * k' + 1) * (b' * b)) by nia.
  assert (E3 : 2 * a = (2 * k' + 1) * b) by nia.
  assert (E4 : 2 * a' = (2 * k' + 1) * b') by nia.
  assert (E5 : k = k' + 1) by nia.
  assert (Ev' : Z.even k' = true) by (apply EU2; exact E4).
  assert (Ev : Z.even k = true) by (apply EL1; subst k; nia).
  rewrite E5, Z.even_add, Ev' in Ev. discriminate.
Qed.

Lemma fexp_normal (x : Z) : -1074 <= x - 53 -> fexp 53 1024 x = x - 53.
Proof. unfold fexp, emin. lia. Qed.

Lemma Zdigits2_pos_ge (x : Z) : 1 <= Zdigits2 x -> 0 < x \/ x < 0.
Proof. destruct x; cbn; lia. Qed.

Lemma div_pow2_bounds (x d : Z) :
  53 <= d -> 2 ^ (d - 1) <= x < 2 ^ d ->
  2 ^ 52 <= x / 2 ^ (d - 53) < 2 ^ 53.
Proof.
  intros Hd [Hlo Hhi].
  assert (P : 0 < 2 ^ (d - 53)) by (apply Z.pow_pos_nonneg; lia).
  assert (E1 : 2 ^ (d - 1) = 2 ^ (d - 53) * 2 ^ 52).
  { rewrite <- Z.pow_add_r by lia. f_equal. lia. }
  assert (E2 : 2 ^ d = 2 ^ (d - 53) * 2 ^ 53).
  { rewrite <- Z.pow_add_r by lia. f_equal. lia. }
  split.
  - apply Z.div_le_lower_bound; lia.
  - apply Z.div_lt_upper_bound; lia.
Qed.

(** The mantissa kept by [rnd] has 53 bits. *)
Lemma rne_shifted_bounds (a b : Z) :
  0 <= a -> 0 < b -> 53 <= Zdigits2 (a / b) ->
  let n := Zdigits2 (a / b) - 53 in
  2 ^ 52 <= rne_div a (b * 2 ^ n) <= 2 ^ 53.
Proof.
  intros Ha Hb Hd n.
  assert (Hq : 0 < a / b).
  { destruct (Zdigits2_pos_ge (a / b)) as [H|H]; [lia|exact H|].
    pose proof (Z.div_pos a b Ha Hb). lia. }
  assert (P : 0 < 2 ^ n) by (apply Z.pow_pos_nonneg; subst n; lia).
  destruct (rne_div_spec a (b * 2 ^ n) Ha ltac:(nia)) as [_ [_ [_ Hk]]].
  rewrite <- Z.div_div in Hk by lia.
  destruct (a / b) as [|p|p] eqn:E; try lia.
  pose proof (div_pow2_bounds (Zpos p) (Zdigits2 (Zpos p)) Hd
                (Zdigits2_bounds p)) as B.
  fold n in B. lia.
Qed.

Lemma rnd_canonical (a b e : Z) :
  0 <= a -> 0 < b -> 53 <= Zdigits2 (a / b) ->
  2 ^ 52 <= fst (rnd a b e) < 2 ^ 53 /\
  e + Zdigits2 (a / b) - 53 <= snd (rnd a b e) <= e + Zdigits2 (a / b) - 52.
Proof.
  intros Ha Hb Hd. pose proof (rne_shifted_bounds a b Ha Hb Hd) as B.
  unfold rnd. cbv zeta in *.
  destruct (Z.eqb_spec (rne_div a (b * 2 ^ (Zdigits2 (a / b) - 53))) (2 ^ 53));
    cbn [fst snd]; lia.
Qed.

Lemma binary_round_aux_correct (sx : bool) (a b e : Z) :
  0 <= a -> 0 < b -> 53 <= Zdigits2 (a / b) ->
  -1074 <= e -> e + Zdigits2 (a / b) <= 1023 ->
  binary_round_aux 53 1024 sx (a / b) e (loc_rem (a mod b) b) =
  S754_finite sx (Z.to_pos (fst (rnd a b e))) (snd (rnd a b e)).
Proof.
  intros Ha Hb Hd He Hov.
  pose proof (rne_shifted_bounds a b Ha Hb Hd) as B. cbv zeta in B.
  unfold binary_round_aux, shr_fexp, rnd.
  set (d := Zdigits2 (a / b)) in *.
  rewrite fexp_normal by lia.
  replace (d + e - 53 - e) with (d - 53) by lia.
  destruct (tracks_shr a b e (d - 53)
              (shr_record_of_loc (a / b) (loc_rem (a mod b) b))
              Ha Hb ltac:(lia) (tracks_of_loc a b)) as [[Tm Tl] Te].
  destruct (shr _ e (d - 53)) as [mrs' e']. cbn [fst snd] in *. subst e'.
  rewrite Tm, Tl. fold (rne_div a (b * 2 ^ (d - 53))).
  set (k := rne_div a (b * 2 ^ (d - 53))) in *.
  destruct (Z.eqb_spec k (2 ^ 53)) as [E|E].
  - rewrite E. cbn [fst snd].
    change (Zdigits2 (2 ^ 53)) with 54.
    rewrite fexp_normal by lia.
    replace (54 + (e + (d - 53)) - 53 - (e + (d - 53))) with 1 by lia.
    cbn [shr_record_of_loc shr iter_pos]. cbn.
    destruct (Z.leb_spec (e + (d - 53) + 1) 971); [reflexivity|lia].
  - assert (Dk : Zdigits2 k = 53).
    { apply Zdigits2_unique; [lia|]. change (53 - 1) with 52. lia. }
    rewrite Dk, fexp_normal by lia.
    replace (53 + (e + (d - 53)) - 53 - (e + (d - 53))) with 0 by lia.
    cbn [shr_record_of_loc shr fst snd shr_m].
    destruct k as [|p|p] eqn:Ek; try lia.
    cbn [Z.to_pos].
    destruct (Z.leb_spec (e + (d - 53)) (1024 - 53)); [reflexivity|lia].
Qed.

Lemma floor_bounds (a b : Z) :
  0 <= a -> 0 < b -> 1 <= Zdigits2 (a / b) ->
  2 ^ (Zdigits2 (a / b) - 1) * b <= a < 2 ^ Zdigits2 (a / b) * b.
Proof.
  intros Ha Hb Hd.
  pose proof (Z.div_mod a b ltac:(lia)) as Hab.
  pose proof (Z.mod_pos_bound a b Hb) as Hr.
  pose proof (Z.div_pos a b Ha Hb) as Hq.
  destruct (a / b) as [|p|p] eqn:E; [cbn in Hd; lia| |lia].
  pose proof (Zdigits2_bounds p) as [Lo Hi].
  set (d := Zdigits2 (Zpos p)) in *. nia.
Qed.

(** The magnitude of a value bounds the magnitude of every larger one. *)
Lemma magnitude_mono (a b e a' b' e' : Z) :
  0 <= a -> 0 < b -> 1 <= Zdigits2 (a / b) ->
  0 <= a' -> 0 < b' -> 1 <= Zdigits2 (a' / b') ->
  a * b' * 2 ^ (e - Z.min e e') <= a' * b * 2 ^ (e' - Z.min e e') ->
  Zdigits2 (a / b) + e <= Zdigits2 (a' / b') + e'.
Proof.
  intros Ha Hb Hd Ha' Hb' Hd' H.
  destruct (floor_bounds a b Ha Hb Hd) as [Lo _].
  destruct (floor_bounds a' b' Ha' Hb' Hd') as [_ Hi].
  set (d := Zdigits2 (a / b)) in *. set (d' := Zdigits2 (a' / b')) in *.
  set (s := e - Z.min e e') in *. set (s' := e' - Z.min e e') in *.
  assert (Hs : 0 <= s) by (subst s; lia).
  assert (Hs' : 0 <= s') by (subst s'; lia).
  destruct (Z_le_gt_dec (d + e) (d' + e')) as [G|G]; [exact G|exfalso].
  assert (P : 2 ^ (d' + s') <= 2 ^ (d - 1 + s)).
  { apply Z.pow_le_mono_r; [lia|]. subst s s'. lia. }
  rewrite !Z.pow_add_r in P by lia.
  set (X := 2 ^ (d - 1)) in *. set (Y := 2 ^ s) in *.
  set (X' := 2 ^ d') in *. set (Y' := 2 ^ s') in *.
  assert (0 < X) by (apply Z.pow_pos_nonneg; lia).
  assert (0 < Y) by (apply Z.pow_pos_nonneg; lia).
  assert (0 < X') by (apply Z.pow_pos_nonneg; lia).
  assert (0 < Y') by (apply Z.pow_pos_nonneg; lia).
  assert (S1 : X * b * (b' * Y) <= a * (b' * Y)).
  { apply Z.mul_le_mono_nonneg_r; nia. }
  assert (S2 : a' * (b * Y') < X' * b' * (b * Y')).
  { apply Z.mul_lt_mono_pos_r; nia. }
  assert (S3 : X' * Y' * (b * b') <= X * Y * (b * b')).
  { apply Z.mul_le_mono_nonneg_r; nia. }
  nia.
Qed.

Lemma rnd_mono (a b e a' b' e' : Z) :
  0 <= a -> 0 < b -> 53 <= Zdigits2 (a / b) ->
  0 <= a' -> 0 < b' -> 53 <= Zdigits2 (a' / b') ->
  a * b' * 2 ^ (e - Z.min e e') <= a' * b * 2 ^ (e' - Z.min e e') ->
  lex_le (rnd a b e) (rnd a' b' e').
Proof.
  intros Ha Hb Hd Ha' Hb' Hd' H.
  pose proof (magnitude_mono a b e a' b' e' Ha Hb ltac:(lia)
                Ha' Hb' ltac:(lia) H) as Hmag.
  pose proof (rne_shifted_bounds a b Ha Hb Hd) as B.
  pose proof (rne_shifted_bounds a' b' Ha' Hb' Hd') as B'.
  cbv zeta in B, B'. unfold rnd, lex_le.
  set (d := Zdigits2 (a / b)) in *. set (d' := Zdigits2 (a' / b')) in *.
  set (k := rne_div a (b * 2 ^ (d - 53))) in *.
  set (k' := rne_div a' (b' * 2 ^ (d' - 53))) in *.
  assert (Hk : d + e = d' + e' -> k <= k').
  { intros Heq. subst k k'.
    assert (0 < 2 ^ (d - 53)) by (apply Z.pow_pos_nonneg; lia).
    assert (0 < 2 ^ (d' - 53)) by (apply Z.pow_pos_nonneg; lia).
    apply rne_div_mono; try nia.
    destruct (Z_le_gt_dec e' e) as [G|G].
    - rewrite Z.min_r in H by lia.
      replace (e' - e') with 0 in H by lia. rewrite Z.pow_0_r in H.
      replace (d' - 53) with ((d - 53) + (e - e')) by lia.
      rewrite Z.pow_add_r by lia.
      set (N := 2 ^ (d - 53)) in *. set (S := 2 ^ (e - e')) in *.
      assert (0 < S) by (apply Z.pow_pos_nonneg; lia).
      replace (a * (b' * (N * S))) with (a * b' * S * N) by ring.
      replace (a' * (b * N)) with (a' * b * 1 * N) by ring.
      apply Z.mul_le_mono_nonneg_r; lia.
    - rewrite Z.min_l in H by lia.
      replace (e - e) with 0 in H by lia. rewrite Z.pow_0_r in H.
      replace (d - 53) with ((d' - 53) + (e' - e)) by lia.
      rewrite Z.pow_add_r by lia.
      set (N := 2 ^ (d' - 53)) in *. set (S := 2 ^ (e' - e)) in *.
      assert (0 < S) by (apply Z.pow_pos_nonneg; lia).
      replace (a * (b' * N)) with (a * b' * 1 * N) by ring.
      replace (a' * (b * (N * S))) with (a' * b * S * N) by ring.
      apply Z.mul_le_mono_nonneg_r; lia. }
  destruct (Z.eqb_spec k (2 ^ 53)) as [E|E];
    destruct (Z.eqb_spec k' (2 ^ 53)) as [E'|E']; cbn [fst snd];
    destruct (Z.eq_dec (d + e) (d' + e')) as [Q|Q];
    try (specialize (Hk Q)); lia.
Qed.

Lemma SFleb_of_lex (m m' : positive) (e e' : Z) :
  lex_le (Zpos m, e) (Zpos m', e') ->
  SFleb (S754_finite false m e) (S754_finite false m' e') = true.
Proof.
  unfold lex_le, SFleb, SFcompare. cbn [fst snd]. intros [H|[-> H]].
  - apply Z.compare_lt_iff in H. now rewrite H.
  - rewrite Z.compare_refl. fold (Pos.compare m m').
    destruct (Pos.compare_spec m m'); [reflexivity|reflexivity|lia].
Qed.

Lemma ordered_weaken (L L' : Z) (x y : spec_float) :
  L <= L' -> ordered L x y -> ordered L' x y.
Proof.
  intros HL H. destruct H; constructor; auto; lia.
Qed.

Lemma ordered_trans (L : Z) (x y z : spec_float) :
  ordered L x y -> ordered L y z -> ordered L x z.
Proof.
  intros H1 H2. destruct H1; inversion H2; subst; constructor; auto.
  unfold lex_le in *. cbn [fst snd] in *. lia.
Qed.

Lemma ordered_leb (L : Z) (x y : spec_float) :
  ordered L x y -> SFleb x y = true.
Proof.
  intros H. destruct H; [reflexivity|reflexivity|].
  now apply SFleb_of_lex.
Qed.

Lemma ordered_refl_l (L : Z) (x y : spec_float) :
  ordered L x y -> ordered L x x.
Proof.
  intros H. destruct H; constructor; auto; right; cbn; lia.
Qed.

Lemma ordered_refl_r (L : Z) (x y : spec_float) :
  ordered L x y -> ordered L y y.
Proof.
  intros H. destruct H; constructor; auto; right; cbn; lia.
Qed.

Lemma digits_range (x lo hi : Z) :
  0 <= lo -> 2 ^ lo <= x < 2 ^ hi -> lo < Zdigits2 x <= hi.
Proof.
  intros Hlo [H1 H2].
  assert (0 < x) by (pose proof (Z.pow_pos_nonneg 2 lo); lia).
  destruct x as [|p|p]; try lia.
  pose proof (Zdigits2_bounds p) as [B1 B2].
  set (d := Zdigits2 (Zpos p)) in *.
  assert (0 < d) by (subst d; cbn; lia).
  split.
  - destruct (Z_lt_ge_dec lo d); [assumption|].
    assert (2 ^ d <= 2 ^ lo) by (apply Z.pow_le_mono_r; lia). lia.
  - destruct (Z_le_gt_dec d hi); [assumption|].
    assert (0 <= hi).
    { destruct (Z_le_gt_dec 0 hi); [assumption|].
      rewrite Z.pow_neg_r in H2 by lia. lia. }
    assert (2 ^ hi <= 2 ^ (d - 1)) by (apply Z.pow_le_mono_r; lia). lia.
Qed.

(** The order of two canonical floats, as an inequality of integers. *)
Lemma lex_le_scaled (m e m' e' : Z) :
  canonical53 m -> canonical53 m' -> lex_le (m, e) (m', e') ->
  m * 2 ^ (e - Z.min e e') <= m' * 2 ^ (e' - Z.min e e').
Proof.
  unfold canonical53, lex_le. cbn [fst snd]. intros Hm Hm' [H|[-> H]].
  - rewrite Z.min_l by lia. replace (e - e) with 0 by lia.
    rewrite Z.pow_0_r.
    assert (2 ^ 1 <= 2 ^ (e' - e)) by (apply Z.pow_le_mono_r; lia).
    change (2 ^ 1) with 2 in *. change (2 ^ 53) with (2 * 2 ^ 52) in *.
    nia.
  - rewrite Z.min_id. replace (e' - e') with 0 by lia.
    rewrite Z.pow_0_r. lia.
Qed.

(** Two values rounded by [rnd], as floats. *)
Lemma ordered_rnd (L a b e a' b' e' : Z) :
  0 <= a -> 0 < b -> 53 <= Zdigits2 (a / b) ->
  0 <= a' -> 0 < b' -> 53 <= Zdigits2 (a' / b') ->
  a * b' * 2 ^ (e - Z.min e e') <= a' * b * 2 ^ (e' - Z.min e e') ->
  - L <= e + Zdigits2 (a / b) - 53 -> e + Zdigits2 (a / b) - 52 <= L ->
  - L <= e' + Zdigits2 (a' / b') - 53 -> e' + Zdigits2 (a' / b') - 52 <= L ->
  ordered L
    (S754_finite false (Z.to_pos (fst (rnd a b e))) (snd (rnd a b e)))
    (S754_finite false (Z.to_pos (fst (rnd a' b' e'))) (snd (rnd a' b' e'))).
Proof.
  intros Ha Hb Hd Ha' Hb' Hd' H B1 B2 B1' B2'.
  destruct (rnd_canonical a b e Ha Hb Hd) as [C E].
  destruct (rnd_canonical a' b' e' Ha' Hb' Hd') as [C' E'].
  pose proof (rnd_mono a b e a' b' e' Ha Hb Hd Ha' Hb' Hd' H) as M.
  destruct (rnd a b e) as [k ek], (rnd a' b' e') as [k' ek'].
  cbn [fst snd] in *.
  assert (0 < k) by (pose proof (Z.pow_pos_nonneg 2 52); lia).
  assert (0 < k') by (pose proof (Z.pow_pos_nonneg 2 52); lia).
  constructor; unfold canonical53; rewrite ?Z2Pos.id by lia; auto; lia.
Qed.

Lemma zero_below_rnd (L a b e : Z) :
  0 <= a -> 0 < b -> 53 <= Zdigits2 (a / b) ->
  - L <= e + Zdigits2 (a / b) - 53 -> e + Zdigits2 (a / b) - 52 <= L ->
  ordered L (S754_zero false)
    (S754_finite false (Z.to_pos (fst (rnd a b e))) (snd (rnd a b e))).
Proof.
  intros Ha Hb Hd B1 B2.
  destruct (rnd_canonical a b e Ha Hb Hd) as [C E].
  destruct (rnd a b e) as [k ek]. cbn [fst snd] in *.
  assert (0 < k) by (pose proof (Z.pow_pos_nonneg 2 52); lia).
  constructor; unfold canonical53; rewrite ?Z2Pos.id by lia; auto; lia.
Qed.

(** ** Multiplication by a positive constant *)

Lemma product_digits (m C : Z) :
  canonical53 m -> canonical53 C -> 105 <= Zdigits2 (m * C) <= 106.
Proof.
  unfold canonical53. intros Hm HC.
  assert (H : 104 < Zdigits2 (m * C) <= 106).
  { apply digits_range; [lia|].
    change (2 ^ 104) with (2 ^ 52 * 2 ^ 52).
    change (2 ^ 106) with (2 ^ 53 * 2 ^ 53).
    assert (0 < 2 ^ 52) by reflexivity.
    split.
    - apply Z.mul_le_mono_nonneg; lia.
    - apply Z.mul_lt_mono_nonneg; lia. }
  lia.
Qed.

Lemma SFmul_finite (m C : positive) (e ec : Z) :
  canonical53 (Zpos m) -> canonical53 (Zpos C) ->
  -1074 <= e + ec -> e + ec + 106 <= 1023 ->
  SFmul 53 1024 (S754_finite false m e) (S754_finite false C ec) =
  S754_finite false
    (Z.to_pos (fst (rnd (Zpos m * Zpos C) 1 (e + ec))))
    (snd (rnd (Zpos m * Zpos C) 1 (e + ec))).
Proof.
  intros Hm HC H1 H2.
  pose proof (product_digits _ _ Hm HC) as D.
  pose proof (binary_round_aux_correct false (Zpos m * Zpos C) 1 (e + ec))
    as R.
  rewrite Z.div_1_r, Z.mod_1_r in R.
  change (loc_rem 0 1) with loc_Exact in R.
  cbn [SFmul xorb]. rewrite Pos2Z.inj_mul.
  apply R; lia.
Qed.

Lemma SFmul_ordered (L L' : Z) (C : positive) (ec : Z) (x y : spec_float) :
  canonical53 (Zpos C) ->
  -1074 <= - L + ec -> L + ec + 106 <= 1023 ->
  - L' <= - L + ec + 52 -> L + ec + 54 <= L' ->
  ordered L x y ->
  ordered L' (SFmul 53 1024 x (S754_finite false C ec))
             (SFmul 53 1024 y (S754_finite false C ec)).
Proof.
  intros HC H1 H2 H3 H4 H.
  destruct H as [|m e Hm He|m e m' e' Hm Hm' He He' Hle].
  - constructor.
  - rewrite SFmul_finite by (auto; lia).
    change (SFmul 53 1024 (S754_zero false) (S754_finite false C ec))
      with (S754_zero false).
    pose proof (product_digits _ _ Hm HC) as D.
    apply zero_below_rnd; rewrite ?Z.div_1_r; lia.
  - rewrite !SFmul_finite by (auto; lia).
    pose proof (product_digits _ _ Hm HC) as D.
    pose proof (product_digits _ _ Hm' HC) as D'.
    apply ordered_rnd; rewrite ?Z.div_1_r; try lia.
    pose proof (lex_le_scaled _ _ _ _ Hm Hm' Hle) as S.
    replace (e + ec - Z.min (e + ec) (e' + ec)) with (e - Z.min e e') by lia.
    replace (e' + ec - Z.min (e + ec) (e' + ec)) with (e' - Z.min e e') by lia.
    rewrite !Z.mul_1_r.
    set (P := 2 ^ (e - Z.min e e')) in *.
    set (P' := 2 ^ (e' - Z.min e e')) in *.
    replace (Zpos m * Zpos C * P) with (Zpos m * P * Zpos C) by ring.
    replace (Zpos m' * Zpos C * P') with (Zpos m' * P' * Zpos C) by ring.
    apply Z.mul_le_mono_nonneg_r; lia.
Qed.

(** ** Division by a positive constant with an even mantissa *)

Lemma quotient_digits (m C : Z) :
  canonical53 m -> canonical53 C -> 53 <= Zdigits2 (m * 2 ^ 53 / C) <= 54.
Proof.
  unfold canonical53. intros Hm HC.
  assert (H : 52 < Zdigits2 (m * 2 ^ 53 / C) <= 54).
  { apply digits_range; [lia|]. split.
    - apply Z.div_le_lower_bound; [lia|].
      assert (0 < 2 ^ 52) by reflexivity.
      transitivity (2 ^ 53 * 2 ^ 52); [|nia].
      apply Z.mul_le_mono_nonneg_r; lia.
    - apply Z.div_lt_upper_bound; [lia|].
      change (2 ^ 54) with (2 ^ 53 * 2).
      assert (0 < 2 ^ 53) by reflexivity.
      change (2 ^ 53) with (2 * 2 ^ 52) in *. nia. }
  lia.
Qed.

Lemma SFdiv_finite (m C : positive) (e ec : Z) :
  canonical53 (Zpos m) -> canonical53 (Zpos C) -> Z.even (Zpos C) = true ->
  -1074 <= e - ec - 53 -> e - ec + 1 <= 1023 ->
  SFdiv 53 1024 (S754_finite false m e) (S754_finite false C ec) =
  S754_finite false
    (Z.to_pos (fst (rnd (Zpos m * 2 ^ 53) (Zpos C) (e - ec - 53))))
    (snd (rnd (Zpos m * 2 ^ 53) (Zpos C) (e - ec - 53))).
Proof.
  intros Hm HC Hev H1 H2.
  pose proof (quotient_digits _ _ Hm HC) as D.
  pose proof (binary_round_aux_correct false (Zpos m * 2 ^ 53) (Zpos C)
                (e - ec - 53)) as R.
  cbn [SFdiv xorb]. unfold SFdiv_core_binary.
  assert (Dm : Zdigits2 (Zpos m) = 53).
  { apply Zdigits2_unique; [lia|exact Hm]. }
  assert (DC : Zdigits2 (Zpos C) = 53).
  { apply Zdigits2_unique; [lia|exact HC]. }
  rewrite Dm, DC.
  replace (53 + e - (53 + ec)) with (e - ec) by lia.
  rewrite fexp_normal by lia.
  rewrite Z.min_l by lia.
  replace (e - ec - (e - ec - 53)) with 53 by lia.
  cbv iota beta.
  rewrite Z.shiftl_mul_pow2 by lia.
  unfold new_location. rewrite Hev. unfold new_location_even.
  pose proof (R ltac:(lia) ltac:(lia) ltac:(lia) ltac:(lia) ltac:(lia)) as R'.
  unfold Z.div, Z.modulo, loc_rem in R'.
  destruct (Z.div_eucl (Zpos m * 2 ^ 53) (Zpos C)) as [q r].
  exact R'.
Qed.

Lemma SFdiv_ordered (L L' : Z) (C : positive) (ec : Z) (x y : spec_float) :
  canonical53 (Zpos C) -> Z.even (Zpos C) = true ->
  -1074 <= - L - ec - 53 -> L - ec + 1 <= 1023 ->
  - L' <= - L - ec - 53 -> L - ec + 2 <= L' ->
  ordered L x y ->
  ordered L' (SFdiv 53 1024 x (S754_finite false C ec))
             (SFdiv 53 1024 y (S754_finite false C ec)).
Proof.
  intros HC Hev H1 H2 H3 H4 H.
  destruct H as [|m e Hm He|m e m' e' Hm Hm' He He' Hle].
  - constructor.
  - rewrite SFdiv_finite by (auto; lia).
    change (SFdiv 53 1024 (S754_zero false) (S754_finite false C ec))
      with (S754_zero false).
    pose proof (quotient_digits _ _ Hm HC) as D.
    assert (0 < 2 ^ 53) by reflexivity.
    apply zero_below_rnd; lia.
  - rewrite !SFdiv_finite by (auto; lia).
    pose proof (quotient_digits _ _ Hm HC) as D.
    pose proof (quotient_digits _ _ Hm' HC) as D'.
    assert (0 < 2 ^ 53) by reflexivity.
    apply ordered_rnd; try lia.
    pose proof (lex_le_scaled _ _ _ _ Hm Hm' Hle) as S.
    replace (e - ec - 53 - Z.min (e - ec - 53) (e' - ec - 53))
      with (e - Z.min e e') by lia.
    replace (e' - ec - 53 - Z.min (e - ec - 53) (e' - ec - 53))
      with (e' - Z.min e e') by lia.
    set (P := 2 ^ (e - Z.min e e')) in *.
    set (P' := 2 ^ (e' - Z.min e e')) in *.
    replace (Zpos m * 2 ^ 53 * Zpos C * P)
      with (Zpos m * P * (2 ^ 53 * Zpos C)) by ring.
    replace (Zpos m' * 2 ^ 53 * Zpos C * P')
      with (Zpos m' * P' * (2 ^ 53 * Zpos C)) by ring.
    apply Z.mul_le_mono_nonneg_r; lia.
Qed.

(** ** Conversion of an integer *)

Lemma iter_xO (d p : positive) :
  Zpos (Pos.iter xO p d) = Zpos p * 2 ^ Zpos d.
Proof.
  induction d as [|d IH] using Pos.peano_ind.
  - change (Zpos (Pos.iter xO p 1)) with (2 * Zpos p).
    rewrite Z.pow_1_r. ring.
  - rewrite Pos.iter_succ, Pos2Z.inj_succ, Z.pow_succ_r by lia.
    change (Zpos (Pos.iter xO p d)~0) with (2 * Zpos (Pos.iter xO p d)).
    rewrite IH. ring.
Qed.

(** [float64(n)] for a positive [n] below [2^64] rounds [mz * 2^ez],
    where [mz] is [n] shifted left until it has at least 53 bits. *)
Lemma of_int_pos (p : positive) :
  Zpos p < 2 ^ 64 ->
  exists mz ez,
    0 < mz /\ mz = Zpos p * 2 ^ (- ez) /\ -52 <= ez <= 0 /\
    53 <= Zdigits2 mz <= 64 /\
    (ez < 0 -> Zdigits2 mz = 53) /\
    F64.of_int (Zpos p) =
    S754_finite false (Z.to_pos (fst (rnd mz 1 ez))) (snd (rnd mz 1 ez)).
Proof.
  intros Hp.
  pose proof (Zdigits2_bounds p) as B.
  assert (Dp : 0 < Zdigits2 (Zpos p) <= 64).
  { pose proof (digits_range (Zpos p) 0 64 ltac:(lia)) as D.
    change (2 ^ 0) with 1 in D. lia. }
  unfold F64.of_int, F64.prec, F64.emax, binary_normalize, binary_round.
  change (Zpos (digits2_pos p)) with (Zdigits2 (Zpos p)).
  set (d := Zdigits2 (Zpos p)) in *.
  rewrite Z.add_0_r, fexp_normal by lia.
  unfold shl_align. rewrite Z.sub_0_r.
  pose proof (binary_round_aux_correct false) as R.
  destruct (d - 53) as [|k|k] eqn:E.
  - exists (Zpos p), 0.
    specialize (R (Zpos p) 1 0).
    rewrite Z.div_1_r, Z.mod_1_r in R. change (loc_rem 0 1) with loc_Exact in R.
    fold d in R. change (2 ^ (- 0)) with 1.
    repeat split; try lia. apply R; lia.
  - exists (Zpos p), 0.
    specialize (R (Zpos p) 1 0).
    rewrite Z.div_1_r, Z.mod_1_r in R. change (loc_rem 0 1) with loc_Exact in R.
    fold d in R. change (2 ^ (- 0)) with 1.
    repeat split; try lia. apply R; lia.
  - exists (Zpos (Pos.iter xO p k)), (Zneg k).
    assert (Dz : Zdigits2 (Zpos (Pos.iter xO p k)) = 53).
    { apply Zdigits2_unique; [lia|]. rewrite iter_xO.
      replace (Zpos k) with (53 - d) by lia.
      assert (0 < 2 ^ (53 - d)) by (apply Z.pow_pos_nonneg; lia).
      assert (E1 : 2 ^ (53 - 1) = 2 ^ (d - 1) * 2 ^ (53 - d)).
      { rewrite <- Z.pow_add_r by lia. f_equal. lia. }
      assert (E2 : 2 ^ 53 = 2 ^ d * 2 ^ (53 - d)).
      { rewrite <- Z.pow_add_r by lia. f_equal. lia. }
      rewrite E1, E2. split.
      - apply Z.mul_le_mono_nonneg_r; lia.
      - apply Z.mul_lt_mono_pos_r; lia. }
    specialize (R (Zpos (Pos.iter xO p k)) 1 (Zneg k)).
    rewrite Z.div_1_r, Z.mod_1_r in R. change (loc_rem 0 1) with loc_Exact in R.
    rewrite Dz in *.
    repeat split; try lia.
    + rewrite iter_xO. reflexivity.
    + apply R; lia.
Qed.

Lemma of_int_ordered (n n' : Z) :
  0 <= n <= n' -> n' < 2 ^ 64 ->
  ordered 64 (F64.of_int n) (F64.of_int n').
Proof.
  intros Hn Hn'.
  destruct n' as [|p'|p']; [|destruct n as [|p|p]|]; try lia.
  - replace n with 0 by lia. constructor.
  - destruct (of_int_pos p' Hn') as [mz [ez [Hz [Ez [Bz [Dz [_ ->]]]]]]].
    change (F64.of_int 0) with (S754_zero false).
    apply zero_below_rnd; rewrite ?Z.div_1_r; lia.
  - destruct (of_int_pos p ltac:(lia)) as [mz [ez [Hz [Ez [Bz [Dz [_ ->]]]]]]].
    destruct (of_int_pos p' Hn') as [mz' [ez' [Hz' [Ez' [Bz' [Dz' [_ ->]]]]]]].
    apply ordered_rnd; rewrite ?Z.div_1_r; try lia.
    rewrite !Z.mul_1_r. rewrite Ez, Ez'.
    rewrite <- !Z.mul_assoc, <- !Z.pow_add_r by lia.
    replace (- ez + (ez - Z.min ez ez')) with (- Z.min ez ez') by lia.
    replace (- ez' + (ez' - Z.min ez ez')) with (- Z.min ez ez') by lia.
    apply Z.mul_le_mono_nonneg_r; [|lia].
    apply Z.pow_nonneg. lia.
Qed.

(** ** [math.Round] *)

Lemma half_up_floor (a b : Z) :
  0 < b -> half_up a b = (2 * a + b) / (2 * b).
Proof.
  intros Hb. unfold half_up.
  pose proof (Z.div_mod a b ltac:(lia)) as Hab.
  pose proof (Z.mod_pos_bound a b Hb) as Hr.
  set (q := a / b) in *. set (r := a mod b) in *.
  destruct (Z.leb_spec b (2 * r)).
  - apply Z.div_unique with (2 * r - b); nia.
  - apply Z.div_unique with (2 * r + b); nia.
Qed.

Lemma div_cross_mono (x y x' y' : Z) :
  0 <= x -> 0 < y -> 0 < y' -> x * y' <= x' * y -> x / y <= x' / y'.
Proof.
  intros Hx Hy Hy' H.
  apply Z.div_le_lower_bound; [lia|].
  pose proof (Z.mul_div_le x y Hy) as Q.
  pose proof (Z.div_pos x y Hx Hy) as Q0.
  set (q := x / y) in *.
  assert (q * y' * y <= x' * y) by nia.
  nia.
Qed.

Lemma half_up_mono (a b a' b' : Z) :
  0 <= a -> 0 < b -> 0 < b' -> a * b' <= a' * b ->
  half_up a b <= half_up a' b'.
Proof.
  intros Ha Hb Hb' H. rewrite !half_up_floor by lia.
  apply div_cross_mono; nia.
Qed.

Lemma Round_fraction (m : positive) (e : Z) :
  e < 0 ->
  F64.Round (S754_finite false m e) =
  F64.of_int (half_up (Zpos m) (2 ^ (- e))).
Proof.
  intros He. unfold F64.Round, half_up, F64.of_int.
  destruct (Z.leb_spec 0 e); [lia|]. reflexivity.
Qed.

Lemma Round_integer (m : positive) (e : Z) :
  0 <= e -> F64.Round (S754_finite false m e) = S754_finite false m e.
Proof.
  intros He. unfold F64.Round. destruct (Z.leb_spec 0 e); [reflexivity|lia].
Qed.

Lemma half_up_small (m e : Z) :
  canonical53 m -> e < 0 -> 0 <= half_up m (2 ^ (- e)) <= 2 ^ 52.
Proof.
  unfold canonical53. intros Hm He.
  assert (P : 2 ^ 1 <= 2 ^ (- e)) by (apply Z.pow_le_mono_r; lia).
  change (2 ^ 1) with 2 in P.
  rewrite half_up_floor by lia. split.
  - apply Z.div_pos; lia.
  - apply Z.lt_succ_r. apply Z.div_lt_upper_bound; [lia|].
    change (2 ^ 53) with (2 * 2 ^ 52) in Hm. nia.
Qed.

Lemma Round_ordered (L : Z) (x y : spec_float) :
  64 <= L -> ordered L x y -> ordered L (F64.Round x) (F64.Round y).
Proof.
  intros HL H.
  assert (Two52 : F64.of_int (2 ^ 52) = S754_finite false (2 ^ 52) 0)
    by reflexivity.
  assert (small : forall m e, canonical53 (Zpos m) -> e < 0 ->
            ordered L (F64.of_int (half_up (Zpos m) (2 ^ (- e))))
                      (S754_finite false (2 ^ 52) 0)).
  { intros m e Hm He. rewrite <- Two52.
    apply ordered_weaken with 64; [lia|].
    apply of_int_ordered; [apply half_up_small; assumption|reflexivity]. }
  destruct H as [|m e Hm He|m e m' e' Hm Hm' He He' Hle].
  - constructor.
  - change (F64.Round (S754_zero false)) with (F64.of_int 0).
    destruct (Z_lt_ge_dec e 0) as [G|G].
    + rewrite Round_fraction by lia.
      apply ordered_weaken with 64; [lia|].
      pose proof (half_up_small _ _ Hm G).
      apply of_int_ordered; [lia|].
      assert (2 ^ 52 < 2 ^ 64) by reflexivity. lia.
    + rewrite Round_integer by lia. constructor; auto.
  - destruct (Z_lt_ge_dec e 0) as [G|G];
      destruct (Z_lt_ge_dec e' 0) as [G'|G'].
    + rewrite !Round_fraction by lia.
      apply ordered_weaken with 64; [lia|].
      pose proof (half_up_small _ _ Hm G).
      pose proof (half_up_small _ _ Hm' G').
      assert (2 ^ 52 < 2 ^ 64) by reflexivity.
      apply of_int_ordered; [|lia]. split; [lia|].
      assert (0 < 2 ^ (- e)) by (apply Z.pow_pos_nonneg; lia).
      assert (0 < 2 ^ (- e')) by (apply Z.pow_pos_nonneg; lia).
      apply half_up_mono; try lia.
      pose proof (lex_le_scaled _ _ _ _ Hm Hm' Hle) as S.
      assert (Hee : e <= e') by (unfold lex_le in Hle; cbn in Hle; lia).
      rewrite Z.min_l in S by lia.
      replace (e - e) with 0 in S by lia. rewrite Z.pow_0_r in S.
      replace (- e) with ((e' - e) + (- e')) by lia.
      rewrite Z.pow_add_r by lia.
      set (A := 2 ^ (e' - e)) in *. set (B := 2 ^ (- e')) in *.
      replace (Zpos m' * (A * B)) with (Zpos m' * A * B) by ring.
      apply Z.mul_le_mono_nonneg_r; lia.
    + rewrite Round_fraction by lia. rewrite (Round_integer m' e') by lia.
      eapply ordered_trans; [apply small; assumption|].
      assert (C52 : canonical53 (Zpos (2 ^ 52))).
      { unfold canonical53. change (Zpos (2 ^ 52)) with (2 ^ 52). lia. }
      constructor; auto; [lia|].
      unfold lex_le. cbn [fst snd]. unfold canonical53 in Hm'.
      change (Zpos (2 ^ 52)) with (2 ^ 52). lia.
    + exfalso. unfold lex_le in Hle. cbn in Hle. lia.
    + rewrite !Round_integer by lia. constructor; auto.
Qed.

(** ** The conversion [roundedMega], on non-negative integers *)

Lemma roundedMega_ordered (scale : Z) (C : positive) (ec v v' : Z) :
  F64.of_int scale = S754_finite false C ec ->
  canonical53 (Zpos C) -> Z.even (Zpos C) = true -> -64 <= ec <= 0 ->
  0 <= v <= v' -> v' < 2 ^ 64 ->
  ordered 230 (roundedMega scale v) (roundedMega scale v').
Proof.
  intros Hscale HC Hev Hec Hv Hv'.
  unfold roundedMega, F64.div, F64.mul, F64.prec, F64.emax. rewrite Hscale.
  change (F64.of_int 1048576) with (S754_finite false (2 ^ 52) (-32)).
  assert (C52 : canonical53 (Zpos (2 ^ 52))).
  { unfold canonical53. change (Zpos (2 ^ 52)) with (2 ^ 52). lia. }
  apply SFdiv_ordered with 160; auto; try lia.
  apply Round_ordered; [lia|].
  apply SFmul_ordered with 100; auto; try lia.
  apply SFdiv_ordered with 64; auto; try lia.
  now apply of_int_ordered.
Qed.

(** ** Negative integers: every stage commutes with the change of sign *)

Lemma SFopp_involutive (x : spec_float) : SFopp (SFopp x) = x.
Proof. destruct x as [s|s| |s m e]; cbn; now rewrite ?negb_involutive. Qed.

Lemma binary_round_aux_opp (sx : bool) (mx ex : Z) (lx : location) :
  binary_round_aux 53 1024 (negb sx) mx ex lx =
  SFopp (binary_round_aux 53 1024 sx mx ex lx).
Proof.
  unfold binary_round_aux.
  destruct (shr_fexp 53 1024 mx ex lx) as [mrs' e'].
  destruct (shr_fexp 53 1024 _ e' loc_Exact) as [mrs'' e''].
  destruct (shr_m mrs''); [reflexivity| |reflexivity].
  destruct (e'' <=? 1024 - 53); reflexivity.
Qed.

Lemma of_int_opp (n : Z) :
  n <> 0 -> F64.of_int (- n) = SFopp (F64.of_int n).
Proof.
  intros Hn. unfold F64.of_int, binary_normalize, binary_round.
  destruct n as [|p|p]; [congruence| |]; cbn [Z.opp];
    destruct (shl_align _ _ _) as [mz ez].
  - exact (binary_round_aux_opp false _ _ _).
  - rewrite (binary_round_aux_opp false). now rewrite SFopp_involutive.
Qed.

Lemma SFdiv_opp (x : spec_float) (C : positive) (ec : Z) :
  SFdiv 53 1024 (SFopp x) (S754_finite false C ec) =
  SFopp (SFdiv 53 1024 x (S754_finite false C ec)).
Proof.
  destruct x as [s|s| |s m e]; cbn [SFopp SFdiv]; try reflexivity.
  - now destruct s.
  - now destruct s.
  - destruct (SFdiv_core_binary 53 1024 (Zpos m) e (Zpos C) ec) as [[mz ez] lz].
    rewrite !xorb_false_r. apply binary_round_aux_opp.
Qed.

Lemma SFmul_opp (x : spec_float) (C : positive) (ec : Z) :
  SFmul 53 1024 (SFopp x) (S754_finite false C ec) =
  SFopp (SFmul 53 1024 x (S754_finite false C ec)).
Proof.
  destruct x as [s|s| |s m e]; cbn [SFopp SFmul]; try reflexivity.
  - now destruct s.
  - now destruct s.
  - rewrite !xorb_false_r. apply binary_round_aux_opp.
Qed.

Lemma binary_normalize_opp (n : Z) (s : bool) :
  binary_normalize 53 1024 (- n) 0 (negb s) =
  SFopp (binary_normalize 53 1024 n 0 s).
Proof.
  unfold binary_normalize, binary_round.
  destruct n as [|p|p]; cbn [Z.opp]; [reflexivity| |];
    destruct (shl_align _ _ _) as [mz ez].
  - exact (binary_round_aux_opp false _ _ _).
  - rewrite (binary_round_aux_opp false). now rewrite SFopp_involutive.
Qed.

Lemma Round_opp (x : spec_float) : F64.Round (SFopp x) = SFopp (F64.Round x).
Proof.
  destruct x as [s|s| |s m e]; cbn [SFopp F64.Round]; try reflexivity.
  destruct (0 <=? e); [reflexivity|]. cbv zeta.
  set (n := if 2 ^ (- e) <=? 2 * (Zpos m mod 2 ^ (- e))
            then Zpos m / 2 ^ (- e) + 1 else Zpos m / 2 ^ (- e)).
  unfold F64.prec, F64.emax.
  rewrite <- binary_normalize_opp. f_equal.
  destruct s; cbn [negb]; lia.
Qed.

Lemma roundedMega_opp (scale : Z) (C : positive) (ec v : Z) :
  F64.of_int scale = S754_finite false C ec -> v <> 0 ->
  roundedMega scale (- v) = SFopp (roundedMega scale v).
Proof.
  intros Hscale Hv. unfold roundedMega, F64.div, F64.mul, F64.prec, F64.emax.
  rewrite Hscale.
  change (F64.of_int 1048576) with (S754_finite false (2 ^ 52) (-32)).
  rewrite of_int_opp by assumption.
  now rewrite SFdiv_opp, SFmul_opp, Round_opp, SFdiv_opp.
Qed.

Lemma ordered_opp_leb (L : Z) (x y : spec_float) :
  ordered L x y -> SFleb (SFopp y) (SFopp x) = true.
Proof.
  intros H. destruct H as [| |m e m' e' _ _ _ _ Hle]; [reflexivity..|].
  unfold lex_le in Hle. cbn [fst snd] in Hle.
  unfold SFleb, SFcompare. cbn [SFopp negb].
  destruct Hle as [H|[-> H]].
  - apply Z.compare_gt_iff in H. now rewrite H.
  - rewrite Z.compare_refl. fold (Pos.compare m' m).
    destruct (Pos.compare_spec m' m); [reflexivity|lia|reflexivity].
Qed.

Lemma opp_leb_nonneg (L : Z) (x y : spec_float) :
  ordered L x x -> ordered L y y -> SFleb (SFopp x) y = true.
Proof.
  intros Hx Hy. inversion Hx; inversion Hy; subst; reflexivity.
Qed.

Lemma roundedMega_monotone (scale : Z) (C : positive) (ec v v' : Z) :
  F64.of_int scale = S754_finite false C ec ->
  canonical53 (Zpos C) -> Z.even (Zpos C) = true -> -64 <= ec <= 0 ->
  - 2 ^ 63 <= v -> v <= v' -> v' < 2 ^ 63 ->
  F64.leb (roundedMega scale v) (roundedMega scale v') = true.
Proof.
  intros Hscale HC Hev Hec Hlo Hle Hhi. unfold F64.leb.
  assert (B : 2 ^ 63 < 2 ^ 64) by reflexivity.
  destruct (Z_le_gt_dec 0 v) as [Hv|Hv].
  - eapply ordered_leb.
    apply (roundedMega_ordered scale C ec); auto; lia.
  - destruct (Z_le_gt_dec 0 v') as [Hv'|Hv'].
    + replace v with (- - v) by lia.
      rewrite (roundedMega_opp scale C ec (- v)) by (auto; lia).
      apply opp_leb_nonneg with 230.
      * eapply ordered_refl_l.
        apply (roundedMega_ordered scale C ec (- v) (- v)); auto; lia.
      * eapply ordered_refl_l.
        apply (roundedMega_ordered scale C ec v' v'); auto; lia.
    + replace v with (- - v) by lia. replace v' with (- - v') by lia.
      rewrite (roundedMega_opp scale C ec (- v)) by (auto; lia).
      rewrite (roundedMega_opp scale C ec (- v')) by (auto; lia).
      eapply ordered_opp_leb.
      apply (roundedMega_ordered scale C ec (- v') (- v)); auto; lia.
Qed.

Lemma sizeMBOf_monotone (b1 b2 : Z) :
  - 2 ^ 63 <= b1 -> b1 <= b2 -> b2 < 2 ^ 63 ->
  F64.leb (sizeMBOf b1) (sizeMBOf b2) = true.
Proof.
  intros. unfold sizeMBOf.
  apply (roundedMega_monotone 100 7036874417766400 (-46));
    auto; try reflexivity; try lia.
  unfold canonical53. split; [discriminate|reflexivity].
Qed.

(** X2: the bitrate conversion is monotone as well, over the [int]
    range. *)
Theorem bitrateMbpsOf_monotone (v1 v2 : Z) :
  - 2 ^ 63 <= v1 -> v1 <= v2 -> v2 < 2 ^ 63 ->
  F64.leb (bitrateMbpsOf v1) (bitrateMbpsOf v2) = true.
Proof.
  intros. unfold bitrateMbpsOf.
  apply (roundedMega_monotone 1000 8796093022208000 (-43));
    auto; try reflexivity; try lia.
  unfold canonical53. split; [discriminate|reflexivity].
Qed.

Lemma bitrateMbpsOf_monotone_witness :
  F64.leb (bitrateMbpsOf 2097152) (bitrateMbpsOf 5000000) = true.
Proof.
  apply (bitrateMbpsOf_monotone 2097152 5000000); lia.
Defined.

(** ** The conversions of the size and of the bitrate *)

(** C7: both conversions divide by 1,048,576 and round to a fixed number
    of decimals.  [sizeMBOf] never decreases when the number of bytes
    grows, over the whole [int64] range; [sizeMBOf 1048576] is the float
    1 and prints as 1.00; [bitrateMbpsOf 1048576] is the float 1 and
    prints as 1.000; [bitrateMbpsOf 0] is the float 0 and prints as
    0.000. *)
Theorem size_and_bitrate_conversions :
  (forall b1 b2 : Z,
     - 2 ^ 63 <= b1 -> b1 <= b2 -> b2 < 2 ^ 63 ->
     F64.leb (sizeMBOf b1) (sizeMBOf b2) = true) /\
  (forall bytes : Z,
     sizeMBOf bytes =
     F64.div (F64.Round (F64.mul (F64.div (F64.of_int bytes)
                                          (F64.of_int 1048576))
                                 (F64.of_int 100)))
             (F64.of_int 100)) /\
  (forall v : Z,
     bitrateMbpsOf v =
     F64.div (F64.Round (F64.mul (F64.div (F64.of_int v)
                                          (F64.of_int 1048576))
                                 (F64.of_int 1000)))
             (F64.of_int 1000)) /\
  sizeMBOf 1048576 = F64.of_int 1 /\
  F64.Sprintf_f 2 (sizeMBOf 1048576) = "1.00" /\
  bitrateMbpsOf 1048576 = F64.of_int 1 /\
  F64.Sprintf_f 3 (bitrateMbpsOf 1048576) = "1.000" /\
  bitrateMbpsOf 0 = F64.zero /\
  F64.Sprintf_f 3 (bitrateMbpsOf 0) = "0.000".
Proof.
  split; [exact sizeMBOf_monotone|].
  repeat split; vm_compute; reflexivity.
Qed.

Lemma size_and_bitrate_conversions_witness :
  F64.leb (sizeMBOf 5242) (sizeMBOf 5243) = true.
Proof.
  apply (proj1 size_and_bitrate_conversions 5242 5243); lia.
Defined.

(** * A whole scan, under every schedule *)

(** ** Lists up to order *)

Lemma perm_swap_r {A} (l x y r : list A) :
  Permutation l (y ++ x ++ r)%list -> Permutation l (x ++ y ++ r)%list.
Proof.
  intros H. rewrite H. apply Permutation_app_swap_app.
Qed.

Lemma perm_last_r {A} (a l x : list A) :
  Permutation l x -> Permutation (a ++ l)%list (x ++ a)%list.
Proof.
  intros H. rewrite H. apply Permutation_app_comm.
Qed.

Ltac perm_find a :=
  lazymatch goal with
  | |- Permutation (a ++ _)%list (a ++ _)%list => apply Permutation_app_head
  | |- Permutation (a ++ _)%list (_ ++ a ++ _)%list =>
      apply perm_swap_r; apply Permutation_app_head
  | |- Permutation (a ++ _)%list (_ ++ a)%list => apply perm_last_r
  | |- Permutation (a ++ _)%list (?x ++ ?y ++ _)%list =>
      rewrite (app_assoc x y); perm_find a; rewrite <- ?app_assoc
  end.

Ltac uncons :=
  repeat match goal with
         | |- context [?x :: ?l] =>
             lazymatch l with
             | [] => fail
             | _ => change (x :: l) with ([x] ++ l)%list
             end
         end.

Ltac perm :=
  repeat (uncons; rewrite <- ?app_assoc; rewrite ?app_nil_r, ?app_nil_l;
          lazymatch goal with
          | |- Permutation ?l ?l => reflexivity
          | |- Permutation (?a ++ ?l)%list _ => perm_find a
          | |- Permutation ?a (_ ++ _)%list =>
              rewrite <- (app_nil_r a) at 1; perm_find a
          end).

(** ** The invariant of a scan over a working stream *)

Lemma callback_cases (goroutine : spawner) (v : visit) (w : world) :
  callback goroutine v w =
  match v_err v, v_info v with
  | Some e, _ => (log (LogAccessFailure (v_path v) e) w, Return (Some e))
  | None, None => (panic w, Panic)
  | None, Some info =>
      if is_video_file info then (w, Go (goroutine (v_path v) info))
      else if is_other_file info
           then (log (LogSkipping (fi_Name info)) w, Return None)
           else (w, Return None)
  end.
Proof.
  unfold callback, is_video_file, is_other_file.
  destruct (v_err v); [reflexivity|].
  destruct (v_info v) as [info|]; [|reflexivity].
  rewrite videoFileRegex_suffix, subtitleFileRegex_suffix.
  destruct (fi_IsDir info); [reflexivity|]. cbn [negb andb].
  destruct (ends_in_video_ext (fi_Name info)) eqn:V.
  - now rewrite (video_ext_not_subtitle _ V).
  - destruct (ends_in_subtitle_ext (fi_Name info)); reflexivity.
Qed.

Lemma flat_map_enter {B} (F : list action -> list B) (g : list action)
  (rs : list (list action)) :
  F [] = [] -> flat_map F (enter g rs) = (flat_map F rs ++ F g)%list.
Proof.
  intros H. destruct g; cbn [enter].
  - now rewrite H, app_nil_r.
  - rewrite flat_map_app. cbn. now rewrite app_nil_r.
Qed.

Section ScanInvariant.

Variable maxSem : nat.
Variable goroutine : spawner.
Hypothesis goroutine_sound :
  forall p i, forallb sound_action (goroutine p i) = true.

Lemma forallb_enter (g : list action) (rs : list (list action)) :
  forallb sound_action g = true ->
  forallb (forallb sound_action) rs = true ->
  forallb (forallb sound_action) (enter g rs) = true.
Proof.
  intros Hg Hrs. destruct g; [exact Hrs|].
  cbn [enter]. rewrite forallb_app, Hrs. cbn [forallb andb] in *.
  now rewrite Hg.
Qed.

Lemma step_keeps_tidy (c c' : config) :
  tidy c -> step maxSem goroutine c c' ->
  tidy c' /\
  Permutation (all_records goroutine c') (all_records goroutine c) /\
  Permutation (all_logs goroutine c') (all_logs goroutine c).
Proof.
  intros [[Hp [Hw Hf]] [Hwf [Hsnd J]]] Hstep.
  inversion Hstep; subst; cbn [walk running shared] in *.
  - (* a visit that returns nil *)
    rewrite callback_cases in H0.
    cbn [forallb] in Hwf. apply andb_prop in Hwf. destruct Hwf as [Hv Hrest].
    unfold all_records, all_logs, tidy, healthy.
    cbn [walk running shared scan_rows scan_logs].
    unfold well_formed in Hv.
    destruct (v_err v); [discriminate|].
    destruct (v_info v) as [info|]; [|discriminate].
    destruct (is_video_file info); [discriminate|].
    destruct (is_other_file info); inversion H0; subst;
      cbn [log stderr writer stdout panicked].
    + repeat split; auto. all: perm.
    + repeat split; auto.
  - (* a visit that returns the error *)
    rewrite callback_cases in H0.
    unfold all_records, all_logs, tidy, healthy.
    cbn [walk running shared scan_rows scan_logs forallb].
    destruct (v_err v).
    + inversion H0; subst; cbn [log stderr writer stdout panicked].
      repeat split; auto. all: perm.
    + destruct (v_info v) as [info|]; [|discriminate].
      destruct (is_video_file info); [discriminate|].
      destruct (is_other_file info); discriminate.
  - (* a visit that starts a goroutine *)
    rewrite callback_cases in H0.
    cbn [forallb] in Hwf. apply andb_prop in Hwf. destruct Hwf as [Hv Hrest].
    unfold all_records, all_logs, tidy, healthy.
    cbn [walk running shared scan_rows scan_logs].
    destruct (v_err v); [discriminate|].
    destruct (v_info v) as [info|]; [|discriminate].
    destruct (is_video_file info);
      [|destruct (is_other_file info); discriminate].
    inversion H0; subst.
    rewrite !flat_map_enter by reflexivity.
    repeat split; auto.
    + apply forallb_enter; auto.
    + perm.
    + perm.
  - (* a visit without a FileInfo *)
    rewrite callback_cases in H0.
    cbn [forallb] in Hwf. apply andb_prop in Hwf. destruct Hwf as [Hv Hrest].
    unfold well_formed in Hv.
    destruct (v_err v); [discriminate|].
    destruct (v_info v) as [info|]; [|discriminate].
    destruct (is_video_file info);
      [|destruct (is_other_file info)]; discriminate.
  - (* a goroutine moves *)
    rewrite forallb_app in Hsnd. apply andb_prop in Hsnd.
    destruct Hsnd as [Hpre Hrest]. cbn [forallb] in Hrest.
    apply andb_prop in Hrest. destruct Hrest as [Hag Hpost].
    apply andb_prop in Hag. destruct Hag as [Ha Hg].
    unfold all_records, all_logs, tidy, healthy.
    cbn [walk running shared].
    rewrite !flat_map_app, !flat_map_enter by reflexivity.
    cbn [flat_map].
    assert (Hsnd' :
              forallb (forallb sound_action) (pre ++ enter g post) = true).
    { rewrite forallb_app, Hpre. cbn. now apply forallb_enter. }
    destruct a as [l|info [r|] err]; [| |discriminate];
      cbn [perform emits says app].
    + cbn [log stderr writer stdout panicked].
      repeat split; auto. all: perm.
    + rewrite (emit_on_working_stream info r err w Hw Hf).
      cbn [stderr writer stdout panicked Csv.written Csv.pending Csv.werr
           Csv.faults].
      repeat split; auto.
      * right. destruct J as [[-> ->]|[rows [-> ->]]]; cbn [app];
          eexists; split; reflexivity.
      * perm.
      * perm.
Qed.

End ScanInvariant.



Section BothVariants.

Variable mediainfo : prober.
Variable tmpl : string.

Lemma part000_sound (p : string) (i : FileInfo) :
  forallb sound_action (goroutine_part000 mediainfo tmpl p i) = true.
Proof.
  unfold goroutine_part000.
  pose proof (getReport_shape mediainfo p tmpl) as H.
  destruct (getReport mediainfo p tmpl) as [[r|] [e|]]; cbn in *;
    try reflexivity; contradiction.
Qed.

Lemma part001_sound (p : string) (i : FileInfo) :
  forallb sound_action (goroutine_part001 mediainfo tmpl p i) = true.
Proof.
  unfold goroutine_part001.
  pose proof (getReport_shape mediainfo p tmpl) as H.
  destruct (getReport mediainfo p tmpl) as [[r|] [e|]]; cbn in *;
    try reflexivity; contradiction.
Qed.





End BothVariants.

(** Every state of a scan over a working stream is tidy and accounts for
    all the records and all the diagnostics of the scan. *)
Lemma reachable_tidy
  (maxSem : nat) (goroutine : spawner) (vs : list visit) (c : config) :
  (forall p i, forallb sound_action (goroutine p i) = true) ->
  forallb well_formed vs = true ->
  steps maxSem goroutine (start good_stream vs) c ->
  tidy c /\
  Permutation (all_records goroutine c)
              (headers ::
               scan_rows (fun p i => flat_map emits (goroutine p i)) vs) /\
  Permutation (all_logs goroutine c)
              (scan_logs (fun p i => flat_map says (goroutine p i)) vs).
Proof.
  intros Hsound Hwf Hs.
  refine (steps_invariant maxSem goroutine
            (fun c => tidy c /\
               Permutation (all_records goroutine c)
                 (headers :: scan_rows
                    (fun p i => flat_map emits (goroutine p i)) vs) /\
               Permutation (all_logs goroutine c)
                 (scan_logs (fun p i => flat_map says (goroutine p i)) vs))
            _ _ _ Hs _).
  - clear c Hs. intros c c' [Ht [Hr Hl]] Hstep.
    destruct (step_keeps_tidy maxSem goroutine Hsound c c' Ht Hstep)
      as [Ht' [Hr' Hl']].
    split; [exact Ht'|]. split; etransitivity; eassumption.
  - split; [|split; reflexivity].
    unfold tidy, healthy. cbn. repeat split; auto.
Qed.


Lemma row_of_length (info : FileInfo) (r : Report) :
  List.length (row_of info r) = 7%nat.
Proof. reflexivity. Qed.

Lemma scan_rows_Forall (P : Csv.record -> Prop)
  (f : string -> FileInfo -> list Csv.record) (vs : list visit) :
  (forall p i, Forall P (f p i)) -> Forall P (scan_rows f vs).
Proof.
  intros H. induction vs as [|v vs IH]; cbn [scan_rows]; [constructor|].
  destruct (v_err v); [constructor|].
  destruct (v_info v) as [info|]; [|constructor].
  apply Forall_app. split; [|exact IH].
  destruct (is_video_file info); [apply H|constructor].
Qed.

Lemma emits_seven (g : list action) :
  Forall (fun r => List.length r = 7%nat) (flat_map emits g).
Proof.
  induction g as [|a g IH]; cbn [flat_map]; [constructor|].
  apply Forall_app. split; [|exact IH].
  destruct a as [l|info [r|] err]; cbn [emits]; repeat constructor.
Qed.

(** ** What a finished scan has written *)

(** X3: over a stream that takes every write, a scan never panics, in
    neither variant and under no schedule; whatever is on standard output
    at any moment starts with the header row, and every record on it has
    seven fields. *)
Theorem working_stream_scan_is_safe
  (maxSem : nat) (mediainfo : prober) (tmpl : string)
  (goroutine : spawner) (vs : list visit) (c : config) :
  goroutine = goroutine_part000 mediainfo tmpl \/
  goroutine = goroutine_part001 mediainfo tmpl ->
  forallb well_formed vs = true ->
  steps maxSem goroutine (start good_stream vs) c ->
  panicked (shared c) = false /\
  Csv.Error (writer (shared c)) = None /\
  (Csv.written (stdout (shared c)) = [] \/
   exists rows, Csv.written (stdout (shared c)) = headers :: rows) /\
  Forall (fun r => List.length r = 7%nat) (Csv.written (stdout (shared c))).
Proof.
  intros Hvar Hwf Hs.
  assert (Hsound : forall p i, forallb sound_action (goroutine p i) = true).
  { destruct Hvar as [-> | ->];
      [apply part000_sound|apply part001_sound]. }
  destruct (reachable_tidy maxSem goroutine vs c Hsound Hwf Hs)
    as [[[Hp [Hw Hf]] [_ [_ J]]] [Hr _]].
  repeat split; auto.
  - destruct J as [[-> _]|[rows [-> _]]]; eauto.
  - symmetry in Hr.
    assert (All : Forall (fun r => List.length r = 7%nat)
                    (all_records goroutine c)).
    { eapply Permutation_Forall; [exact Hr|].
      constructor; [reflexivity|].
      apply scan_rows_Forall. intros p i. apply emits_seven. }
    unfold all_records in All. apply Forall_app in All. tauto.
Qed.



(** ** The semaphore *)

Lemma length_enter (g : list action) (rs : list (list action)) :
  (List.length (enter g rs) <= S (List.length rs))%nat.
Proof.
  destruct g; cbn [enter]; [lia|]. rewrite length_app. cbn. lia.
Qed.

Lemma nonempty_enter (g : list action) (rs : list (list action)) :
  Forall (fun g => g <> []) rs -> Forall (fun g => g <> []) (enter g rs).
Proof.
  intros H. destruct g; cbn [enter]; [exact H|].
  apply Forall_app. split; [exact H|]. repeat constructor. discriminate.
Qed.

Lemma reachable_within_capacity
  (maxSem : nat) (goroutine : spawner) (out : Csv.ostream)
  (vs : list visit) (c : config) :
  steps maxSem goroutine (start out vs) c ->
  (List.length (running c) <= maxSem)%nat /\
  Forall (fun g => g <> []) (running c).
Proof.
  intros Hs.
  refine (steps_invariant maxSem goroutine
            (fun c => (List.length (running c) <= maxSem)%nat /\
                      Forall (fun g => g <> []) (running c))
            _ _ _ Hs _).
  - clear. intros c c' [Hlen Hne] Hstep.
    inversion Hstep; subst; cbn [running] in *; auto.
    + split; [|now apply nonempty_enter].
      pose proof (length_enter g rs). lia.
    + apply Forall_app in Hne. destruct Hne as [Hpre Hrest].
      inversion Hrest; subst. split.
      * rewrite length_app in *. cbn [List.length] in Hlen.
        pose proof (length_enter g post). lia.
      * apply Forall_app. split; [exact Hpre|now apply nonempty_enter].
  - cbn. split; [lia|constructor].
Qed.

(** X6: at no moment of a scan are more than [maxSem] goroutines in
    flight, whatever the stream, the probe and the schedule. *)
Theorem goroutines_in_flight_bounded
  (maxSem : nat) (goroutine : spawner) (out : Csv.ostream)
  (vs : list visit) (c : config) :
  steps maxSem goroutine (start out vs) c ->
  (List.length (running c) <= maxSem)%nat.
Proof.
  intros Hs. now apply (reachable_within_capacity maxSem goroutine out vs).
Qed.

(** X7: a scan with a semaphore of at least one unit never blocks for
    good: a state that is not the end of the run has a next step. *)
Theorem scan_never_deadlocks
  (maxSem : nat) (goroutine : spawner) (out : Csv.ostream)
  (vs : list visit) (c : config) :
  (1 <= maxSem)%nat ->
  steps maxSem goroutine (start out vs) c ->
  finished c \/ exists c', step maxSem goroutine c c'.
Proof.
  intros Hsem Hs.
  destruct (reachable_within_capacity maxSem goroutine out vs c Hs)
    as [_ Hne].
  destruct c as [wk rs w]. cbn [running] in Hne.
  destruct (panicked w) eqn:Hp; [left; now left|].
  destruct rs as [|g rs].
  - destruct wk as [|v rest]; [left; right; auto|].
    right. destruct (callback goroutine v w) as [w' [[e|]|g|]] eqn:Hcb.
    + eexists. eapply step_halt; eassumption.
    + eexists. eapply step_return; eassumption.
    + eexists. eapply step_go; [eassumption|eassumption|cbn; lia].
    + eexists. eapply step_panic; eassumption.
  - right. inversion Hne; subst. destruct g as [|a g]; [congruence|].
    eexists. exact (step_action maxSem goroutine wk [] a g rs w Hp).
Qed.

Lemma list_sum_enter (g : list action) (rs : list (list action)) :
  list_sum (map (@List.length action) (enter g rs)) =
  (list_sum (map (@List.length action) rs) + List.length g)%nat.
Proof.
  destruct g; cbn [enter]; [cbn; lia|].
  rewrite map_app, list_sum_app. cbn. lia.
Qed.

Lemma visit_cost_pos (goroutine : spawner) (v : visit) :
  (1 <= visit_cost goroutine v)%nat.
Proof.
  unfold visit_cost. destruct (v_err v); [lia|].
  destruct (v_info v) as [info|]; [|lia].
  destruct (is_video_file info); lia.
Qed.

Lemma visit_cost_go (goroutine : spawner) (v : visit) (w w' : world)
  (g : list action) :
  callback goroutine v w = (w', Go g) ->
  visit_cost goroutine v = S (List.length g).
Proof.
  rewrite callback_cases. unfold visit_cost.
  destruct (v_err v); [discriminate|].
  destruct (v_info v) as [info|]; [|discriminate].
  destruct (is_video_file info);
    [|destruct (is_other_file info); discriminate].
  intros H. inversion H; subst. reflexivity.
Qed.

Lemma list_sum_cons (x : nat) (l : list nat) :
  list_sum (x :: l) = (x + list_sum l)%nat.
Proof. reflexivity. Qed.

Lemma step_decreases_weight
  (maxSem : nat) (goroutine : spawner) (c c' : config) :
  step maxSem goroutine c c' ->
  (weight goroutine c' < weight goroutine c)%nat.
Proof.
  intros Hstep. unfold weight.
  inversion Hstep; subst; cbn [walk running map];
    rewrite ?list_sum_cons; change (list_sum []) with 0%nat;
    try pose proof (visit_cost_pos goroutine v).
  - lia.
  - lia.
  - rewrite list_sum_enter, (visit_cost_go goroutine v w w' g) by assumption.
    lia.
  - lia.
  - rewrite !map_app, !list_sum_app, list_sum_enter.
    cbn [map List.length]. rewrite list_sum_cons. lia.
Qed.

Lemma unfinished_state_steps
  (maxSem : nat) (goroutine : spawner) (c : config) :
  (1 <= maxSem)%nat ->
  Forall (fun g => g <> []) (running c) ->
  finished c \/ exists c', step maxSem goroutine c c'.
Proof.
  intros Hsem Hne. destruct c as [wk rs w]. cbn [running] in Hne.
  destruct (panicked w) eqn:Hp; [left; now left|].
  destruct rs as [|g rs].
  - destruct wk as [|v rest]; [left; right; auto|].
    right. destruct (callback goroutine v w) as [w' [[e|]|g|]] eqn:Hcb.
    + eexists. eapply step_halt; eassumption.
    + eexists. eapply step_return; eassumption.
    + eexists. eapply step_go; [eassumption|eassumption|cbn; lia].
    + eexists. eapply step_panic; eassumption.
  - right. inversion Hne; subst. destruct g as [|a g]; [congruence|].
    eexists. exact (step_action maxSem goroutine wk [] a g rs w Hp).
Qed.

Lemma reachable_ends_within
  (maxSem : nat) (goroutine : spawner) (out : Csv.ostream)
  (vs : list visit) :
  (1 <= maxSem)%nat ->
  forall (n : nat) (c : config),
    (weight goroutine c <= n)%nat ->
    steps maxSem goroutine (start out vs) c ->
    ends_within maxSem goroutine n c.
Proof.
  intros Hsem. induction n as [|n IH]; intros c Hw Hs;
    destruct (reachable_within_capacity maxSem goroutine out vs c Hs)
      as [_ Hne];
    destruct (unfinished_state_steps maxSem goroutine c Hsem Hne)
      as [Hfin|[c' Hstep]].
  - exact Hfin.
  - pose proof (step_decreases_weight maxSem goroutine c c' Hstep). lia.
  - left. exact Hfin.
  - right. split; [now exists c'|].
    intros c'' Hstep'. apply IH.
    + pose proof (step_decreases_weight maxSem goroutine c c'' Hstep'). lia.
    + eapply steps_trans; [exact Hs|].
      eapply steps_step; [exact Hstep'|apply steps_refl].
Qed.

(** X8: with a semaphore of at least one unit, every run of a scan comes
    to its end, whatever the schedule: from a reachable state the run is
    never stuck before the walk is over and every goroutine has given its
    unit back (or the process has panicked), and that is the case after
    as many steps, at most, as there are visits and goroutine steps left.
    So the last [sem.Acquire] of [main] returns. *)
Theorem scan_reaches_its_end
  (maxSem : nat) (goroutine : spawner) (out : Csv.ostream)
  (vs : list visit) (c : config) :
  (1 <= maxSem)%nat ->
  steps maxSem goroutine (start out vs) c ->
  ends_within maxSem goroutine (weight goroutine c) c.
Proof.
  intros Hsem Hs.
  apply (reachable_ends_within maxSem goroutine out vs Hsem); [lia|exact Hs].
Qed.

Lemma scan_reaches_its_end_witness :
  ends_within maxSem_part000 (goroutine_part000 demo_mediainfo "tmpl")
              (weight (goroutine_part000 demo_mediainfo "tmpl")
                      (start good_stream demo_visits))
              (start good_stream demo_visits).
Proof.
  apply (scan_reaches_its_end
           maxSem_part000 (goroutine_part000 demo_mediainfo "tmpl")
           good_stream demo_visits).
  - unfold maxSem_part000. lia.
  - apply steps_refl.
Defined.

(** * The probe line *)

Lemma Split_length (sep : ascii) (s : string) :
  List.length (Strings.Split s sep) = S (count_byte sep s).
Proof.
  induction s as [|c s IH]; cbn [Strings.Split count_byte]; [reflexivity|].
  destruct (Ascii.eqb c sep); cbn [List.length]; [now rewrite IH|].
  destruct (Strings.Split s sep) as [|f fs]; [discriminate|].
  cbn [List.length] in *. lia.
Qed.

Lemma Split_without_sep (sep : ascii) (s : string) :
  count_byte sep s = O -> Strings.Split s sep = [s].
Proof.
  induction s as [|c s IH]; cbn [Strings.Split count_byte]; [reflexivity|].
  destruct (Ascii.eqb c sep); [discriminate|]. intros H.
  now rewrite IH.
Qed.

Lemma Split_app_sep (sep : ascii) (e t : string) :
  count_byte sep e = O ->
  Strings.Split (e ++ String sep t) sep = e :: Strings.Split t sep.
Proof.
  induction e as [|c e IH]; cbn [Strings.Split count_byte append].
  - now rewrite Ascii.eqb_refl.
  - destruct (Ascii.eqb c sep); [discriminate|]. intros H.
    now rewrite IH.
Qed.

Lemma Split_join (sep : ascii) (fields : list string) :
  fields <> [] ->
  Forall (fun f => count_byte sep f = O) fields ->
  Strings.Split (join_with sep fields) sep = fields.
Proof.
  intros Hne Hall. induction Hall as [|f fs Hf Hfs IH]; [congruence|].
  destruct fs as [|g fs]; cbn [join_with].
  - now apply Split_without_sep.
  - rewrite Split_app_sep by assumption. f_equal. apply IH. discriminate.
Qed.

Lemma HasSuffix_app (s suffix : string) :
  Strings.HasSuffix (s ++ suffix) suffix = true.
Proof.
  induction s as [|c s IH]; cbn [append Strings.HasSuffix].
  - destruct suffix; cbn [Strings.HasSuffix]; now rewrite String.eqb_refl.
  - rewrite IH. apply orb_true_r.
Qed.

Lemma substring_prefix (s t : string) :
  substring 0 (String.length s) (s ++ t) = s.
Proof.
  induction s as [|c s IH]; cbn [append String.length substring].
  - now destruct t.
  - now rewrite IH.
Qed.

Lemma length_append (s t : string) :
  String.length (s ++ t) = (String.length s + String.length t)%nat.
Proof.
  induction s as [|c s IH]; cbn [append String.length]; [reflexivity|].
  now rewrite IH.
Qed.

Lemma TrimSuffix_app (s suffix : string) :
  Strings.TrimSuffix (s ++ suffix) suffix = s.
Proof.
  unfold Strings.TrimSuffix. rewrite HasSuffix_app.
  rewrite length_append.
  replace (String.length s + String.length suffix - String.length suffix)%nat
    with (String.length s) by lia.
  apply substring_prefix.
Qed.

(** X9: a probe line is read back field by field: seven (or any number
    of) fields without a comma, joined by commas and ended by the newline
    the tool prints, split into exactly those fields. *)
Theorem probe_line_round_trip (fields : list string) :
  fields <> [] ->
  Forall (fun f => count_byte "," f = O) fields ->
  Strings.Split
    (Strings.TrimSuffix (join_with "," fields ++ newline) newline) "," =
  fields.
Proof.
  intros Hne Hall. rewrite TrimSuffix_app. now apply Split_join.
Qed.

Lemma probe_line_round_trip_witness :
  Strings.Split
    (Strings.TrimSuffix
       (join_with "," ["900"; "AVC"; "1920"; "1080"; "2097152"; ""; ""]
        ++ newline) newline) "," =
  ["900"; "AVC"; "1920"; "1080"; "2097152"; ""; ""].
Proof.
  apply (probe_line_round_trip
           ["900"; "AVC"; "1920"; "1080"; "2097152"; ""; ""]).
  - discriminate.
  - repeat constructor.
Defined.

(** X10: [getReport] fails with "Missing full info", naming the path and
    carrying the fields it found, exactly when the line the tool printed
    (less one trailing newline) does not hold six commas; an empty output
    is such a line. *)
Theorem field_count_decides_missing_info
  (mediainfo : prober) (path tmpl bytes : string) :
  mediainfo tmpl path = (bytes, None) ->
  let line := Strings.TrimSuffix bytes newline in
  (count_byte "," line <> 6%nat ->
   getReport mediainfo path tmpl =
   (Some zeroReport, Some (MissingInfo path (Strings.Split line ",")))) /\
  (count_byte "," line = 6%nat ->
   match snd (getReport mediainfo path tmpl) with
   | Some (MissingInfo _ _) => False
   | _ => True
   end).
Proof.
  intros Hrun line. unfold getReport. rewrite Hrun. fold line.
  pose proof (Split_length "," line) as Hlen.
  destruct (Strings.Split line ",")
    as [|i0 [|i1 [|i2 [|i3 [|i4 [|i5 [|i6 [|i7 rest]]]]]]]];
    cbn [List.length] in Hlen; split; intros Hc; try reflexivity; try lia.
  destruct (atoi i2) as [e|w] eqn:E2.
  { apply atoi_inl in E2. destruct E2 as [k ->]. exact I. }
  destruct (atoi i3) as [e|h] eqn:E3.
  { apply atoi_inl in E3. destruct E3 as [k ->]. exact I. }
  destruct (negb (i4 =? "")%string);
    [|destruct (negb (i5 =? "")%string);
      [|destruct (negb (i6 =? "")%string);
        [|destruct (negb (i0 =? "")%string)]]];
    try exact I;
    match goal with
    | |- context [atoi ?s] =>
        let E := fresh in
        destruct (atoi s) as [e|v] eqn:E;
        [apply atoi_inl in E; destruct E as [k ->]|]; exact I
    end.
Qed.

Lemma field_count_decides_missing_info_witness :
  getReport (prints "") "root/song.mp4" "tmpl" =
  (Some zeroReport, Some (MissingInfo "root/song.mp4" [""])).
Proof.
  apply (proj1 (field_count_decides_missing_info
                  (prints "") "root/song.mp4" "tmpl" "" eq_refl)).
  discriminate.
Defined.

(** X11: the checks of [getReport] come in a fixed order and the first
    that fails decides the error: the subprocess, then the width, then
    the height, then the one bitrate field the chain selects.  A selected
    field that is not an integer is an error even when a field of lower
    priority holds a good value: there is no fallback. *)
Theorem getReport_first_failure_decides
  (mediainfo : prober) (path tmpl bytes i0 i1 i2 i3 i4 i5 i6 : string) :
  (forall e, mediainfo tmpl path = (bytes, Some e) ->
             getReport mediainfo path tmpl = (Some zeroReport, Some e)) /\
  (mediainfo tmpl path = (bytes, None) ->
   Strings.Split (Strings.TrimSuffix bytes newline) "," =
     [i0; i1; i2; i3; i4; i5; i6] ->
   let fails_on s k :=
     getReport mediainfo path tmpl = (Some zeroReport, Some (NumError s k)) in
   (forall k, Strconv.Atoi i2 = inl k -> fails_on i2 k) /\
   (forall w k, Strconv.Atoi i2 = inr w -> Strconv.Atoi i3 = inl k ->
                fails_on i3 k) /\
   (forall w h k, Strconv.Atoi i2 = inr w -> Strconv.Atoi i3 = inr h ->
      (i4 <> "" -> Strconv.Atoi i4 = inl k -> fails_on i4 k) /\
      (i4 = "" -> i5 <> "" -> Strconv.Atoi i5 = inl k -> fails_on i5 k) /\
      (i4 = "" -> i5 = "" -> i6 <> "" -> Strconv.Atoi i6 = inl k ->
       fails_on i6 k) /\
      (i4 = "" -> i5 = "" -> i6 = "" -> i0 <> "" ->
       Strconv.Atoi i0 = inl k -> fails_on i0 k))).
Proof.
  split.
  - intros e Hrun. unfold getReport. now rewrite Hrun.
  - intros Hrun Hsplit fails_on. subst fails_on.
    assert (A : forall s k, Strconv.Atoi s = inl k ->
                            atoi s = inl (NumError s k)).
    { intros s k H. unfold atoi. now rewrite H. }
    assert (B : forall s v, Strconv.Atoi s = inr v -> atoi s = inr v).
    { intros s v H. unfold atoi. now rewrite H. }
    split; [|split].
    + intros k H2. unfold getReport. rewrite Hrun, Hsplit, (A _ _ H2).
      reflexivity.
    + intros w k H2 H3. unfold getReport.
      rewrite Hrun, Hsplit, (B _ _ H2), (A _ _ H3). reflexivity.
    + intros w h k H2 H3.
      rewrite (getReport_seven mediainfo path tmpl _ _ _ _ _ _ _ _ _ _
                 Hrun Hsplit (B _ _ H2) (B _ _ H3)).
      repeat split.
      * intros N4 E. rewrite (eqb_empty_false _ N4). cbn.
        now rewrite (A _ _ E).
      * intros -> N5 E. rewrite (eqb_empty_false _ N5). cbn.
        now rewrite (A _ _ E).
      * intros -> -> N6 E. rewrite (eqb_empty_false _ N6). cbn.
        now rewrite (A _ _ E).
      * intros -> -> -> N0 E. rewrite (eqb_empty_false _ N0). cbn.
        now rewrite (A _ _ E).
Qed.

Lemma getReport_first_failure_decides_witness :
  getReport (prints "900,AVC,1920,1080,n/a,5000,") "root/movie.mp4" "tmpl" =
  (Some zeroReport, Some (NumError "n/a" Strconv.ErrSyntax)).
Proof.
  apply (proj1 (proj2 (proj2
          (proj2 (getReport_first_failure_decides
                    (prints "900,AVC,1920,1080,n/a,5000,") "root/movie.mp4"
                    "tmpl" "900,AVC,1920,1080,n/a,5000,"
                    "900" "AVC" "1920" "1080" "n/a" "5000" "")
                 eq_refl eq_refl))
          1920 1080 Strconv.ErrSyntax eq_refl eq_refl)).
  - discriminate.
  - reflexivity.
Defined.

(** ** The conversions never leave the finite numbers *)

Lemma ordered_self_shape (L : Z) (x y : spec_float) :
  ordered L x y -> is_finite x = true /\ signbit x = false.
Proof. intros H. destruct H; split; reflexivity. Qed.

Lemma roundedMega_finite (scale : Z) (C : positive) (ec v : Z) :
  F64.of_int scale = S754_finite false C ec ->
  canonical53 (Zpos C) -> Z.even (Zpos C) = true -> -64 <= ec <= 0 ->
  - 2 ^ 63 <= v < 2 ^ 63 ->
  is_finite (roundedMega scale v) = true /\
  signbit (roundedMega scale v) = (v <? 0).
Proof.
  intros Hscale HC Hev Hec Hv.
  assert (B : 2 ^ 63 < 2 ^ 64) by reflexivity.
  destruct (Z.ltb_spec v 0) as [Hneg|Hpos].
  - replace v with (- - v) by lia.
    rewrite (roundedMega_opp scale C ec (- v)) by (auto; lia).
    destruct (ordered_self_shape 230 _ _
                (roundedMega_ordered scale C ec (- v) (- v) Hscale HC Hev Hec
                   ltac:(lia) ltac:(lia))) as [F S].
    destruct (roundedMega scale (- v)); cbn in *; try discriminate;
      subst; auto.
  - exact (ordered_self_shape 230 _ _
             (roundedMega_ordered scale C ec v v Hscale HC Hev Hec
                ltac:(lia) ltac:(lia))).
Qed.

(** X12: for every [int64] input both conversions give a finite number,
    never a NaN or an infinity, and its sign bit is set exactly when the
    input is negative. *)
Theorem conversions_are_finite (v : Z) :
  - 2 ^ 63 <= v < 2 ^ 63 ->
  is_finite (sizeMBOf v) = true /\ signbit (sizeMBOf v) = (v <? 0) /\
  is_finite (bitrateMbpsOf v) = true /\ signbit (bitrateMbpsOf v) = (v <? 0).
Proof.
  intros Hv.
  assert (C100 : canonical53 (Zpos 7036874417766400)).
  { unfold canonical53. split; [discriminate|reflexivity]. }
  assert (C1000 : canonical53 (Zpos 8796093022208000)).
  { unfold canonical53. split; [discriminate|reflexivity]. }
  destruct (roundedMega_finite 100 7036874417766400 (-46) v
              eq_refl C100 eq_refl ltac:(lia) Hv) as [F1 S1].
  destruct (roundedMega_finite 1000 8796093022208000 (-43) v
              eq_refl C1000 eq_refl ltac:(lia) Hv) as [F2 S2].
  unfold sizeMBOf, bitrateMbpsOf. auto.
Qed.

Lemma conversions_are_finite_witness :
  is_finite (sizeMBOf (-5243)) = true /\
  signbit (sizeMBOf (-5243)) = true /\
  is_finite (bitrateMbpsOf (-5243)) = true /\
  signbit (bitrateMbpsOf (-5243)) = true.
Proof.
  apply (conversions_are_finite (-5243)). lia.
Defined.

(** ** Printing an integer and reading it back *)

Lemma of_uint_acc_ge (d : Decimal.uint) : forall acc : positive,
  (acc <= Pos.of_uint_acc d acc)%positive.
Proof.
  induction d; intros acc; cbn [Pos.of_uint_acc];
    try (etransitivity; [|apply IHd]); lia.
Qed.

Lemma parse_digits_step (c : ascii) (s : string) (n k : Z) :
  Strconv.digit_val c = Some k -> 0 <= n -> 0 <= k ->
  n * 10 + k <= Strconv.maxUint64 ->
  Strconv.parse_digits (String c s) n = Strconv.parse_digits s (n * 10 + k).
Proof.
  intros Hd Hn Hk Hmax. cbn [Strconv.parse_digits]. rewrite Hd.
  unfold Strconv.maxUint64 in *.
  change (18446744073709551615 / 10 + 1) with 1844674407370955162.
  destruct (Z.geb_spec n 1844674407370955162); [lia|].
  cbv zeta.
  destruct (Z.gtb_spec (n * 10 + k) 18446744073709551615); [lia|].
  reflexivity.
Qed.

Ltac eval_digit :=
  match goal with
  | |- context [Z.of_nat (nat_of_ascii ?c) - 48] =>
      let v := eval vm_compute in (Z.of_nat (nat_of_ascii c) - 48) in
      change (Z.of_nat (nat_of_ascii c) - 48) with v
  end.

Ltac digit_step IH G :=
  erewrite parse_digits_step; [|reflexivity|..]; try eval_digit; [|lia|lia|lia];
  match goal with
  | |- Strconv.parse_digits _ ?x = inr (Zpos (Pos.of_uint_acc _ ?a)) =>
      replace x with (Zpos a) by lia; now apply IH
  end.

Lemma parse_digits_acc (d : Decimal.uint) : forall acc : positive,
  Zpos (Pos.of_uint_acc d acc) <= Strconv.maxUint64 ->
  Strconv.parse_digits (NilEmpty.string_of_uint d) (Zpos acc) =
  inr (Zpos (Pos.of_uint_acc d acc)).
Proof.
  induction d; intros acc H;
    cbn [NilEmpty.string_of_uint Pos.of_uint_acc] in *;
    [reflexivity|..];
    match goal with
    | H : Zpos (Pos.of_uint_acc d ?a) <= _ |- _ =>
        pose proof (of_uint_acc_ge d a) as G;
        apply Pos2Z.pos_le_pos in G
    end;
    digit_step IHd G.
Qed.

Lemma parse_digits_lead (d : Decimal.uint) :
  Z.of_N (Pos.of_uint d) <= Strconv.maxUint64 ->
  Strconv.parse_digits (NilEmpty.string_of_uint d) 0 =
  inr (Z.of_N (Pos.of_uint d)).
Proof.
  induction d; intros H;
    cbn [NilEmpty.string_of_uint Pos.of_uint Z.of_N] in *;
    [reflexivity|..];
    (erewrite parse_digits_step; [|reflexivity|..]; try eval_digit;
     [|lia|lia|unfold Strconv.maxUint64; lia]);
    cbn [Z.mul Z.add].
  1: now apply IHd.
  all: now apply parse_digits_acc.
Qed.

Lemma string_of_uint_head (d : Decimal.uint) :
  d <> Decimal.Nil ->
  exists c s, NilEmpty.string_of_uint d = String c s /\
              Ascii.eqb c "+" = false /\ Ascii.eqb c "-" = false.
Proof.
  intros Hd. destruct d; [congruence|..];
    cbn [NilEmpty.string_of_uint]; do 2 eexists; repeat split.
Qed.

Lemma NilZero_nonnil (d : Decimal.uint) :
  d <> Decimal.Nil ->
  NilZero.string_of_uint d = NilEmpty.string_of_uint d.
Proof. destruct d; [congruence|reflexivity..]. Qed.

(** [strconv.Atoi] reads back what [%d] prints. *)
Lemma Atoi_Sprintf_d (n : Z) :
  Strconv.minInt64 <= n <= Strconv.maxInt64 ->
  Strconv.Atoi (Sprintf_d n) = inr n.
Proof.
  unfold Strconv.minInt64, Strconv.maxInt64. intros Hn.
  destruct n as [|p|p]; [reflexivity| |];
    unfold Sprintf_d, F64.dec, Z.to_int, NilZero.string_of_int;
    rewrite (NilZero_nonnil _ (Unsigned.to_uint_nonnil p));
    destruct (string_of_uint_head _ (Unsigned.to_uint_nonnil p))
      as [c [s [Es [Hplus Hminus]]]];
    pose proof (parse_digits_lead (Pos.to_uint p)) as P;
    rewrite Unsigned.of_to in P; cbn [Z.of_N] in P;
    specialize (P ltac:(unfold Strconv.maxUint64; lia));
    unfold Strconv.Atoi, Strconv.ParseInt.
  - rewrite Es in *. rewrite Hplus, Hminus. cbn [orb negb andb].
    unfold Strconv.ParseUint. rewrite P.
    unfold Strconv.maxInt64.
    destruct (Z.geb_spec (Zpos p) (9223372036854775807 + 1)); [lia|].
    reflexivity.
  - rewrite Ascii.eqb_refl. cbn [orb negb andb].
    change (Ascii.eqb "-" "+") with false. cbn [orb].
    unfold Strconv.ParseUint. rewrite Es in *. rewrite P.
    unfold Strconv.maxInt64.
    destruct (Z.gtb_spec (Zpos p) (9223372036854775807 + 1)); [lia|].
    reflexivity.
Qed.

Lemma getReport_success_ints
  (mediainfo : prober) (path tmpl : string) (r : Report) :
  getReport mediainfo path tmpl = (Some r, None) ->
  exists i2 i3, Strconv.Atoi i2 = inr (Width r) /\
                Strconv.Atoi i3 = inr (Height r).
Proof.
  unfold getReport.
  destruct (mediainfo tmpl path) as [bytes [e|]]; [discriminate|].
  destruct (Strings.Split _ _) as [|i0 [|i1 [|i2 [|i3 [|i4 [|i5 [|i6 [|]]]]]]]];
    try discriminate.
  destruct (atoi i2) as [e|w] eqn:Hw; [discriminate|].
  destruct (atoi i3) as [e|h] eqn:Hh; [discriminate|].
  apply atoi_inr in Hw, Hh. intros H.
  destruct (if negb (i4 =? "")%string then _ else _) as [[ty bs]|];
    [|discriminate].
  destruct (atoi bs); [discriminate|].
  inversion H; subst; cbn. eauto.
Qed.

(** X13: the width and height columns of a row are decimal numerals that
    [strconv.Atoi] reads back to the width and height the probe gave:
    what [ToSlice] prints with [%d] loses nothing. *)
Theorem row_width_height_parse_back
  (mediainfo : prober) (path tmpl : string) (r : Report) (info : FileInfo) :
  getReport mediainfo path tmpl = (Some r, None) ->
  Strconv.Atoi (nth 5 (row_of info r) "") = inr (Width r) /\
  Strconv.Atoi (nth 6 (row_of info r) "") = inr (Height r).
Proof.
  intros H. destruct (getReport_success_ints _ _ _ _ H) as [i2 [i3 [Hw Hh]]].
  destruct (Atoi_range _ _ Hw) as [Rw _].
  destruct (Atoi_range _ _ Hh) as [Rh _].
  cbn [row_of ToSlice nth Width Height].
  split; now apply Atoi_Sprintf_d.
Qed.

Lemma row_width_height_parse_back_witness :
  Strconv.Atoi
    (nth 5 (row_of (mkInfo "movie.mp4" 10485760 false)
                   (mkReport "" "AVC" F64.zero "Variable"
                             (bitrateMbpsOf 2097152) (-1920) 1080)) "") =
  inr (-1920) /\
  Strconv.Atoi
    (nth 6 (row_of (mkInfo "movie.mp4" 10485760 false)
                   (mkReport "" "AVC" F64.zero "Variable"
                             (bitrateMbpsOf 2097152) (-1920) 1080)) "") =
  inr 1080.
Proof.
  exact (row_width_height_parse_back
           (prints ",AVC,-1920,1080,2097152,,") "root/movie.mp4" "tmpl"
           (mkReport "" "AVC" F64.zero "Variable" (bitrateMbpsOf 2097152)
                     (-1920) 1080)
           (mkInfo "movie.mp4" 10485760 false) eq_refl).
Defined.

(** * A run on a small tree *)

Ltac visit_returns :=
  eapply steps_step; [apply step_return; reflexivity|].

Ltac visit_starts :=
  eapply steps_step;
  [eapply step_go;
   [reflexivity|reflexivity|
    unfold maxSem_part000, maxSem_part001; cbn; lia]|].

Ltac goroutine_moves :=
  eapply steps_step; [apply (step_action _ _ _ []); reflexivity|].

Lemma demo_run_part000 :
  steps maxSem_part000 (goroutine_part000 demo_mediainfo "tmpl")
        (start good_stream demo_visits)
        (demo_end (goroutine_part000 demo_mediainfo "tmpl")).
Proof.
  visit_returns.
  visit_starts.
  goroutine_moves.
  visit_starts.
  goroutine_moves.
  apply steps_refl.
Qed.



Lemma working_stream_scan_is_safe_witness :
  let c := demo_end (goroutine_part000 demo_mediainfo "tmpl") in
  panicked (shared c) = false /\
  Csv.Error (writer (shared c)) = None /\
  (Csv.written (stdout (shared c)) = [] \/
   exists rows, Csv.written (stdout (shared c)) = headers :: rows) /\
  Forall (fun r => List.length r = 7%nat) (Csv.written (stdout (shared c))).
Proof.
  exact (working_stream_scan_is_safe
           maxSem_part000 demo_mediainfo "tmpl"
           (goroutine_part000 demo_mediainfo "tmpl") demo_visits
           (demo_end (goroutine_part000 demo_mediainfo "tmpl"))
           (or_introl eq_refl) eq_refl demo_run_part000).
Defined.



Lemma goroutines_in_flight_bounded_witness :
  (List.length
     (running (demo_end (goroutine_part000 demo_mediainfo "tmpl")))
   <= maxSem_part000)%nat.
Proof.
  exact (goroutines_in_flight_bounded
           maxSem_part000 (goroutine_part000 demo_mediainfo "tmpl")
           good_stream demo_visits _ demo_run_part000).
Defined.

Lemma scan_never_deadlocks_witness :
  finished (start good_stream demo_visits) \/
  exists c', step maxSem_part000 (goroutine_part000 demo_mediainfo "tmpl")
                  (start good_stream demo_visits) c'.
Proof.
  apply (scan_never_deadlocks
           maxSem_part000 (goroutine_part000 demo_mediainfo "tmpl")
           good_stream demo_visits).
  - unfold maxSem_part000. lia.
  - apply steps_refl.
Defined.

(** ** After a failed write *)

Lemma callback_keeps_stream (goroutine : spawner) (v : visit) (w : world) :
  writer (fst (callback goroutine v w)) = writer w /\
  stdout (fst (callback goroutine v w)) = stdout w.
Proof.
  rewrite callback_cases.
  destruct (v_err v); [split; reflexivity|].
  destruct (v_info v) as [info|]; [|split; reflexivity].
  destruct (is_video_file info); [split; reflexivity|].
  destruct (is_other_file info); split; reflexivity.
Qed.

Lemma perform_on_failed_writer (a : action) (w : world) (e : error) :
  Csv.werr (writer w) = Some e ->
  writer (perform a w) = writer w /\ stdout (perform a w) = stdout w.
Proof.
  intros He. destruct a as [l|info [r|] err]; cbn [perform];
    [split; reflexivity| |split; reflexivity].
  destruct w as [[pend werr] out log_ p]. cbn in He. subst werr.
  destruct err; split; reflexivity.
Qed.

(** X14: the first error of the stream is final: from then on, whatever the
    goroutines do, no record reaches standard output and the writer keeps
    reporting that error. *)
Theorem nothing_is_written_after_a_failure
  (maxSem : nat) (goroutine : spawner) (c c' : config) (e : error) :
  Csv.werr (writer (shared c)) = Some e ->
  steps maxSem goroutine c c' ->
  Csv.written (stdout (shared c')) = Csv.written (stdout (shared c)) /\
  Csv.Error (writer (shared c')) = Some e.
Proof.
  intros He Hs.
  refine (steps_invariant maxSem goroutine
            (fun x => Csv.written (stdout (shared x)) =
                      Csv.written (stdout (shared c)) /\
                      Csv.Error (writer (shared x)) = Some e)
            _ _ _ Hs (conj eq_refl He)).
  clear c' Hs. intros x x' [Hw Herr] Hstep. unfold Csv.Error in *.
  inversion Hstep; subst; cbn [shared] in *;
    try (match goal with
         | H : callback goroutine ?v ?w = (?w', _) |- _ =>
             destruct (callback_keeps_stream goroutine v w) as [K1 K2];
             rewrite H in K1, K2; cbn [fst] in K1, K2;
             rewrite K1, K2; auto
         end).
  destruct (perform_on_failed_writer a w e Herr) as [K1 K2].
  rewrite K1, K2. auto.
Qed.

Lemma nothing_is_written_after_a_failure_witness :
  let w := mkWorld (Csv.mkWriter [headers] (Some (OsError "broken pipe")))
                   good_stream [] false in
  let c := mkConfig [] [[ActEmit (mkInfo "movie.mp4" 10485760 false)
                                 (Some zeroReport)
                                 (Some (ExecError "exit status 1"))]] w in
  let c' := mkConfig [] [] (perform (ActEmit (mkInfo "movie.mp4" 10485760 false)
                                             (Some zeroReport)
                                             (Some (ExecError "exit status 1")))
                                    w) in
  Csv.written (stdout (shared c')) = Csv.written (stdout (shared c)) /\
  Csv.Error (writer (shared c')) = Some (OsError "broken pipe").
Proof.
  intros w c c'.
  apply (nothing_is_written_after_a_failure
           maxSem_part001
           (goroutine_part001 demo_mediainfo "tmpl") c c'
           (OsError "broken pipe") eq_refl).
  goroutine_moves. apply steps_refl.
Defined.

(** X15: [part_001], a video file whose probe fails, and a stream whose
    first write fails: the goroutine does not panic; it logs the probe's
    error, and then reports the flush failure with the text of that same
    probe error, not with the error of the stream. *)
Theorem part001_reports_flush_failure_with_probe_error
  (maxSem : nat) (mediainfo : prober) (tmpl path name : string) (size : Z)
  (r : Report) (e : error) (c : config) :
  ends_in_video_ext name = true ->
  getReport mediainfo path tmpl = (Some r, Some e) ->
  let v := mkVisit path (Some (mkInfo name size false)) None in
  steps maxSem (goroutine_part001 mediainfo tmpl) (start full_stream [v]) c ->
  finished c ->
  panicked (shared c) = false /\
  stderr (shared c) = [LogError e; LogFlushFailure name e] /\
  Csv.written (stdout (shared c)) = [].
Proof.
  intros Hname Hget v Hs Hfin.
  pose proof (callback_on_video_file
                (goroutine_part001 mediainfo tmpl) path name size
                (shared (start full_stream [v])) Hname) as Hcb.
  fold v in Hcb.
  rewrite (single_goroutine_runs maxSem _ v _ _ c Hcb eq_refl Hs Hfin).
  unfold goroutine_part001. rewrite Hget. cbn. auto.
Qed.

Lemma part001_reports_flush_failure_with_probe_error_witness :
  let g := goroutine_part001 demo_mediainfo "tmpl" in
  let v := file_visit "root" "clip.mov" 2048 in
  let c := mkConfig [] [] (run g [v] (shared (start full_stream [v]))) in
  panicked (shared c) = false /\
  stderr (shared c) =
    [LogError (ExecError "exit status 1");
     LogFlushFailure "clip.mov" (ExecError "exit status 1")] /\
  Csv.written (stdout (shared c)) = [].
Proof.
  cbv zeta.
  apply (part001_reports_flush_failure_with_probe_error
           maxSem_part001 demo_mediainfo "tmpl" "root/clip.mov" "clip.mov"
           2048 zeroReport (ExecError "exit status 1") _ eq_refl eq_refl).
  - visit_starts. goroutine_moves. goroutine_moves. apply steps_refl.
  - right. split; reflexivity.
Defined.

(** * Whole numbers go through the conversions unchanged *)

Lemma digits_shift (x n : Z) :
  0 < x -> 0 <= n -> Zdigits2 (x * 2 ^ n) = Zdigits2 x + n.
Proof.
  intros Hx Hn. destruct x as [|p|p]; try lia.
  pose proof (Zdigits2_bounds p) as [Blo Bhi].
  set (d := Zdigits2 (Zpos p)) in *.
  assert (Hd : 0 < d) by (subst d; cbn; lia).
  assert (P : 0 < 2 ^ n) by (apply Z.pow_pos_nonneg; lia).
  apply Zdigits2_unique; [lia|].
  replace (d + n - 1) with (d - 1 + n) by lia.
  rewrite !Z.pow_add_r by lia. split.
  - apply Z.mul_le_mono_nonneg_r; lia.
  - apply Z.mul_lt_mono_pos_r; lia.
Qed.

Lemma digits_small (v : Z) :
  0 < v < 2 ^ 53 -> 1 <= Zdigits2 v <= 53.
Proof.
  intros Hv.
  pose proof (digits_range v 0 53 ltac:(lia)) as D.
  change (2 ^ 0) with 1 in D. lia.
Qed.

Lemma exact_canonical (v : Z) :
  0 < v < 2 ^ 53 -> canonical53 (v * 2 ^ (53 - Zdigits2 v)).
Proof.
  intros Hv. pose proof (digits_small v Hv) as D.
  assert (E : Zdigits2 (v * 2 ^ (53 - Zdigits2 v)) = 53).
  { rewrite digits_shift by lia. lia. }
  assert (P : 0 < v * 2 ^ (53 - Zdigits2 v)).
  { apply Z.mul_pos_pos; [lia|apply Z.pow_pos_nonneg; lia]. }
  destruct (v * 2 ^ (53 - Zdigits2 v)) as [|p|p] eqn:Ep; try lia.
  pose proof (Zdigits2_bounds p) as B. rewrite E in B. exact B.
Qed.

(** Rounding is the identity on a quotient that is an integer of at most
    53 bits, shifted. *)
Lemma rnd_exact (a b e v t : Z) :
  0 < v < 2 ^ 53 -> 0 < b -> 0 <= t -> 53 <= Zdigits2 v + t ->
  a = b * (v * 2 ^ t) ->
  rnd a b e =
  (v * 2 ^ (53 - Zdigits2 v), e + t - (53 - Zdigits2 v)).
Proof.
  intros Hv Hb Ht Hd Ha.
  pose proof (digits_small v Hv) as D.
  pose proof (exact_canonical v Hv) as C. unfold canonical53 in C.
  set (d := Zdigits2 v) in *.
  assert (Q : a / b = v * 2 ^ t).
  { subst a. rewrite Z.mul_comm. apply Z.div_mul. lia. }
  unfold rnd. cbv zeta. rewrite Q, digits_shift by lia. fold d.
  set (n := d + t - 53).
  assert (Hn : 0 <= n) by (subst n; lia).
  assert (P : 0 < 2 ^ n) by (apply Z.pow_pos_nonneg; lia).
  assert (S : a = (v * 2 ^ (53 - d)) * (b * 2 ^ n)).
  { subst a. replace t with (53 - d + n) by (subst n; lia).
    rewrite Z.pow_add_r by lia. ring. }
  assert (K : rne_div a (b * 2 ^ n) = v * 2 ^ (53 - d)).
  { unfold rne_div, loc_rem. rewrite S.
    rewrite Z.div_mul, Z.mod_mul by lia. reflexivity. }
  rewrite K.
  destruct (Z.eqb_spec (v * 2 ^ (53 - d)) (2 ^ 53)) as [E|E]; [lia|].
  f_equal. subst n. lia.
Qed.

Lemma of_int_exact (v : Z) :
  0 < v < 2 ^ 53 -> F64.of_int v = exact_int v.
Proof.
  intros Hv. destruct v as [|p|p]; try lia.
  destruct (of_int_pos p ltac:(lia)) as [mz [ez [Hmz [Emz [Hez [Dz [_ ->]]]]]]].
  assert (Dm : Zdigits2 mz = Zdigits2 (Zpos p) - ez).
  { rewrite Emz, digits_shift by lia. lia. }
  rewrite (rnd_exact mz 1 ez (Zpos p) (- ez)); try lia.
  unfold exact_int. cbn [fst snd]. f_equal. lia.
Qed.

Lemma mul_exact (u s : Z) :
  0 < u -> 0 < s -> u * s < 2 ^ 53 ->
  F64.mul (exact_int u) (exact_int s) = exact_int (u * s).
Proof.
  intros Hu Hs Hus.
  assert (Bu : 0 < u < 2 ^ 53) by nia.
  assert (Bs : 0 < s < 2 ^ 53) by nia.
  assert (Bp : 0 < u * s < 2 ^ 53) by nia.
  pose proof (digits_small u Bu) as Du.
  pose proof (digits_small s Bs) as Ds.
  pose proof (digits_small _ Bp) as Dp.
  pose proof (exact_canonical u Bu) as Cu.
  pose proof (exact_canonical s Bs) as Cs.
  unfold exact_int at 1 2. unfold F64.mul.
  set (du := Zdigits2 u) in *. set (ds := Zdigits2 s) in *.
  set (mu := u * 2 ^ (53 - du)) in *. set (ms := s * 2 ^ (53 - ds)) in *.
  assert (Pu : Zpos (Z.to_pos mu) = mu)
    by (apply Z2Pos.id; unfold canonical53 in Cu; lia).
  assert (Ps : Zpos (Z.to_pos ms) = ms)
    by (apply Z2Pos.id; unfold canonical53 in Cs; lia).
  rewrite SFmul_finite; rewrite ?Pu, ?Ps; auto; try lia.
  assert (E : mu * ms = 1 * (u * s * 2 ^ (106 - du - ds))).
  { subst mu ms. replace (106 - du - ds) with ((53 - du) + (53 - ds)) by lia.
    rewrite Z.pow_add_r by lia. ring. }
  pose proof (product_digits mu ms Cu Cs) as PD.
  rewrite E, Z.mul_1_l, digits_shift in PD by lia.
  rewrite (rnd_exact (mu * ms) 1 (du - 53 + (ds - 53)) (u * s)
             (106 - du - ds)); try lia.
  unfold exact_int. cbn [fst snd]. f_equal. lia.
Qed.

Lemma div_exact (s k : Z) :
  0 < s -> 0 < k -> s * k < 2 ^ 53 ->
  Z.even (s * 2 ^ (53 - Zdigits2 s)) = true ->
  F64.div (exact_int (s * k)) (exact_int s) = exact_int k.
Proof.
  intros Hs Hk Hsk Hev.
  assert (Bk : 0 < k < 2 ^ 53) by nia.
  assert (Bs : 0 < s < 2 ^ 53) by nia.
  assert (Bp : 0 < s * k < 2 ^ 53) by nia.
  pose proof (digits_small k Bk) as Dk.
  pose proof (digits_small s Bs) as Ds.
  pose proof (digits_small _ Bp) as Dp.
  pose proof (exact_canonical _ Bp) as Cp.
  pose proof (exact_canonical s Bs) as Cs.
  unfold exact_int at 1 2. unfold F64.div.
  set (dp := Zdigits2 (s * k)) in *. set (ds := Zdigits2 s) in *.
  set (mp := s * k * 2 ^ (53 - dp)) in *. set (ms := s * 2 ^ (53 - ds)) in *.
  assert (Pp : Zpos (Z.to_pos mp) = mp)
    by (apply Z2Pos.id; unfold canonical53 in Cp; lia).
  assert (Ps : Zpos (Z.to_pos ms) = ms)
    by (apply Z2Pos.id; unfold canonical53 in Cs; lia).
  rewrite SFdiv_finite; rewrite ?Pp, ?Ps; auto; try lia.
  assert (E : mp * 2 ^ 53 = ms * (k * 2 ^ (53 - dp + ds))).
  { subst mp ms.
    replace (2 ^ (53 - dp + ds)) with (2 ^ (53 - dp) * 2 ^ ds)
      by (rewrite <- Z.pow_add_r by lia; reflexivity).
    assert (F : 2 ^ 53 = 2 ^ (53 - ds) * 2 ^ ds).
    { rewrite <- Z.pow_add_r by lia. f_equal. lia. }
    rewrite F. ring. }
  pose proof (quotient_digits mp ms Cp Cs) as QD.
  assert (Pms : 0 < ms) by (unfold canonical53 in Cs; lia).
  rewrite E, (Z.mul_comm ms), Z.div_mul, digits_shift in QD by lia.
  rewrite (rnd_exact (mp * 2 ^ 53) ms (dp - 53 - (ds - 53) - 53) k
             (53 - dp + ds)); try lia.
  unfold exact_int. cbn [fst snd]. f_equal. lia.
Qed.

Lemma Round_exact (v : Z) :
  0 < v < 2 ^ 53 -> F64.Round (exact_int v) = exact_int v.
Proof.
  intros Hv. pose proof (digits_small v Hv) as D.
  pose proof (exact_canonical v Hv) as C. unfold canonical53 in C.
  unfold exact_int at 1.
  destruct (Z.eq_dec (Zdigits2 v) 53) as [E|E].
  - rewrite Round_integer by lia. unfold exact_int. reflexivity.
  - rewrite Round_fraction by lia.
    rewrite Z2Pos.id by lia.
    replace (- (Zdigits2 v - 53)) with (53 - Zdigits2 v) by lia.
    assert (P : 0 < 2 ^ (53 - Zdigits2 v)) by (apply Z.pow_pos_nonneg; lia).
    unfold half_up. rewrite Z.mod_mul, Z.div_mul by lia.
    destruct (Z.leb_spec (2 ^ (53 - Zdigits2 v)) (2 * 0)); [lia|].
    now apply of_int_exact.
Qed.

Lemma roundedMega_exact (scale k : Z) :
  0 < scale -> 0 < k -> k * 1048576 < 2 ^ 53 -> k * scale < 2 ^ 53 ->
  Z.even (scale * 2 ^ (53 - Zdigits2 scale)) = true ->
  roundedMega scale (k * 1048576) = F64.of_int k.
Proof.
  intros Hs Hk Hm Hks Hev. unfold roundedMega.
  rewrite (of_int_exact (k * 1048576)) by lia.
  rewrite (of_int_exact 1048576) by (split; reflexivity).
  rewrite (of_int_exact scale) by nia.
  rewrite (Z.mul_comm k 1048576).
  rewrite div_exact by (try reflexivity; lia).
  rewrite mul_exact by lia.
  rewrite Round_exact by lia.
  rewrite (Z.mul_comm k scale).
  rewrite div_exact by (auto; lia).
  symmetry. apply of_int_exact. nia.
Qed.

Lemma Sprintf_f_exact (digits : nat) (k : Z) :
  0 < k < 2 ^ 53 ->
  F64.Sprintf_f (S digits) (exact_int k) =
  F64.dec k ++ "." ++ F64.zeros digits ++ "0".
Proof.
  intros Hk. pose proof (digits_small k Hk) as D.
  pose proof (exact_canonical k Hk) as C. unfold canonical53 in C.
  unfold exact_int, F64.Sprintf_f.
  set (P := 10 ^ Z.of_nat (S digits)).
  assert (HP : 0 < P) by (apply Z.pow_pos_nonneg; lia).
  assert (HD : 0 < 2 ^ (53 - Zdigits2 k)) by (apply Z.pow_pos_nonneg; lia).
  assert (E : F64.scaled_nearest_even (S digits)
                (Z.to_pos (k * 2 ^ (53 - Zdigits2 k))) (Zdigits2 k - 53) =
              k * P).
  { unfold F64.scaled_nearest_even. fold P. rewrite Z2Pos.id by lia.
    destruct (Z.leb_spec 0 (Zdigits2 k - 53)).
    - replace (Zdigits2 k - 53) with 0 by lia.
      replace (53 - Zdigits2 k) with 0 by lia. cbn [Z.pow]. ring.
    - replace (- (Zdigits2 k - 53)) with (53 - Zdigits2 k) by lia.
      replace (k * 2 ^ (53 - Zdigits2 k) * P)
        with (k * P * 2 ^ (53 - Zdigits2 k)) by ring.
      rewrite Z.mod_mul, Z.div_mul by lia. cbn [Z.mul].
      destruct (Z.compare_spec 0 (2 ^ (53 - Zdigits2 k))); lia. }
  rewrite E. unfold F64.fixed. fold P.
  rewrite Z.mod_mul, Z.div_mul by lia.
  change (F64.dec 0) with "0". cbn [String.length append].
  replace (S digits - 1)%nat with digits by lia. reflexivity.
Qed.

(** X16: a size that is a whole number [k] of MiB, below [2^33] MiB, is
    converted without any error: the [SizeMB] column reads [k.00]; and a
    bitrate of [k * 1048576] bits per second reads [k.000]. *)
Theorem whole_mebibytes_are_exact (k : Z) :
  0 <= k < 2 ^ 33 ->
  sizeMBOf (k * 1048576) = F64.of_int k /\
  bitrateMbpsOf (k * 1048576) = F64.of_int k /\
  F64.Sprintf_f 2 (sizeMBOf (k * 1048576)) = F64.dec k ++ ".00" /\
  F64.Sprintf_f 3 (bitrateMbpsOf (k * 1048576)) = F64.dec k ++ ".000".
Proof.
  intros Hk.
  destruct (Z.eq_dec k 0) as [->|Hnz]; [repeat split; reflexivity|].
  assert (B : 2 ^ 33 * 1048576 = 2 ^ 53) by reflexivity.
  assert (B' : 2 ^ 33 * 1000 < 2 ^ 53) by reflexivity.
  assert (S : sizeMBOf (k * 1048576) = F64.of_int k).
  { unfold sizeMBOf. apply roundedMega_exact; try reflexivity; lia. }
  assert (R : bitrateMbpsOf (k * 1048576) = F64.of_int k).
  { unfold bitrateMbpsOf. apply roundedMega_exact; try reflexivity; lia. }
  rewrite S, R. rewrite of_int_exact by lia.
  repeat split; try reflexivity.
  - apply (Sprintf_f_exact 1). lia.
  - apply (Sprintf_f_exact 2). lia.
Qed.

Lemma whole_mebibytes_are_exact_witness :
  sizeMBOf (700 * 1048576) = F64.of_int 700 /\
  bitrateMbpsOf (700 * 1048576) = F64.of_int 700 /\
  F64.Sprintf_f 2 (sizeMBOf (700 * 1048576)) = "700.00" /\
  F64.Sprintf_f 3 (bitrateMbpsOf (700 * 1048576)) = "700.000".
Proof.
  apply (whole_mebibytes_are_exact 700). lia.
Defined.
